(** * matchmake-client: a shallow embedding of [MatchmakeClient]

    The client (matchmake-client.ts) is an event emitter wrapped around a
    Phoenix socket.  Its own logic is: building outbound messages, turning
    acknowledgements into resolved or rejected promises, re-emitting pushes
    as local events and diffing two lobby snapshots.

    Modelling choices.
    - JS [number]s that travel as JSON integers (ids, ports, player counts)
      are [Z]; [!==] and [Set.prototype.has] agree with equality on them.
    - Optional fields ([host_type?], [sessionToken?], [apiToken?]) are
      [option]; JS truthiness of an optional string is [truthy].
    - [new Set(xs)] is a [gset Z], [has] is membership.
    - The client object is a record threaded through a small monad [M] that
      also collects, in program order, every [emit], every [console.log]
      and every call made on the Phoenix socket and its channels, and that
      can complete by [throw].
    - An [async] method is split where it awaits the acknowledgement: the
      [_start] part runs up to the request, the [_resume] part runs when
      the transport delivers ["ok"] or ["error"].  A request that is never
      acknowledged is simply never resumed.
    - When the channel a request should go to is absent, the promise
      executor throws and the [catch] block runs on the next microtask;
      nothing of the client runs in between, so the [_start] part includes
      it.
    - Listeners called by [emit] are outside the library; they are assumed
      not to call back into the client while an operation runs, and not to
      throw. An [emit] is recorded whether or not a listener is registered.
    - Errors are values: [new LobbyError(m)] is [mk_error LobbyError m], so
      "the same error object" reads as "the same error value". *)

From Stdlib Require Import ZArith Lia.
From stdpp Require Import base decidable option numbers list strings pretty gmap.

Set Warnings "-register-all,-clear-no-such-hyp".
Local Open Scope Z_scope.

(** ** Data model (types.ts) *)

Inductive lobby_type := auto_match | player_created.

Module MatchmakingConfig.
Record t := mk
  { id : Z; name : string; max_players : Z; lobby_type : lobby_type }.
End MatchmakingConfig.

Module Player.
Record t := mk { id : Z; slug : string; joined_at : string }.
End Player.

Inductive lobby_status := pending | open | full | cancelled | started | finished.
Inductive host_type := p2p | dedicated.

(** [Record<string, unknown>]: the values are arbitrary JSON. *)
Inductive json :=
| JNull
| JBool (b : bool)
| JNum (n : Z)
| JStr (s : string)
| JArr (xs : list json)
| JObj (fields : list (string * json)).

Module Lobby.
Record t := mk
  { id : Z;
    name : string;
    status : lobby_status;
    max_players : Z;
    host_type : option host_type;
    host_address : option string;
    host_port : option Z;
    metadata : list (string * json);
    players : list Player.t;
    created_at : string }.
End Lobby.

Module ConnectOptions.
Record t := mk { playerSlug : string; ipAddress : string }.
End ConnectOptions.

Module HostInfo.
Record t := mk { type : host_type; address : string; port : Z }.
End HostInfo.

Module ClientOptions.
Record t := mk { apiToken : option string; debug : option bool }.
End ClientOptions.

Module ConnectResponse.
Record t := mk
  { active_configs : list MatchmakingConfig.t; session_token : string }.
End ConnectResponse.

Module LobbyResponse.
Record t := mk { lobby : Lobby.t }.
End LobbyResponse.

(** The object literal [{type, address, port}] carried by [hostChanged]:
    unlike [HostInfo] its fields are those of the lobby, hence optional. *)
Module HostDescriptor.
Record t := mk
  { type : option host_type; address : option string; port : option Z }.
End HostDescriptor.

Global Instance lobby_status_eq_dec : EqDecision lobby_status.
Proof. solve_decision. Defined.
Global Instance host_type_eq_dec : EqDecision host_type.
Proof. solve_decision. Defined.

(** ** Errors *)

Inductive error_class := MatchmakeError | ConnectionError | LobbyError.

(** A thrown value: an instance of one of the library's classes, or the
    engine's [TypeError] for reading property [prop] of [undefined] or
    [null]. *)
Inductive js_error :=
| mk_error (cls : error_class) (message : string)
| TypeError_of_undefined (prop : string).

Global Instance error_class_eq_dec : EqDecision error_class.
Proof. solve_decision. Defined.
Global Instance js_error_eq_dec : EqDecision js_error.
Proof. solve_decision. Defined.

(** [e instanceof MatchmakeError]: the three classes form one hierarchy. *)
Definition instanceof_MatchmakeError (e : js_error) : bool :=
  match e with mk_error _ _ => true | TypeError_of_undefined _ => false end.

Definition instanceof_ConnectionError (e : js_error) : bool :=
  match e with mk_error ConnectionError _ => true | _ => false end.

Definition instanceof_LobbyError (e : js_error) : bool :=
  match e with mk_error LobbyError _ => true | _ => false end.

(** The payload of an ["error"] acknowledgement; the code reads only its
    [reason]. *)
Record error_payload := { reason : option string }.

(** What the transport hands to a [receive] callback. *)
Inductive ack (A : Type) :=
| ack_ok (resp : A)
| ack_error (err : error_payload).
Arguments ack_ok {A} resp.
Arguments ack_error {A} err.

(** Truthiness of an optional string: absent and empty are falsy. *)
Definition truthy (o : option string) : bool :=
  match o with
  | Some s => bool_decide (s ≠ "")
  | None => false
  end.

(** [o || d] on an optional string. *)
Definition or_else (o : option string) (d : string) : string :=
  match o with
  | Some s => if truthy o then s else d
  | None => d
  end.

(** ** The transport (phoenix) as seen from the client *)

Record Channel :=
  { topic : string; chan_params : list (string * option string) }.

Record PhoenixSocket :=
  { endpoint : string;
    (** headers set by the custom [ws] transport (Node only) *)
    transport_headers : list (string * string);
    (** connection parameters, sent in the query string *)
    params : list (string * string) }.

Inductive message :=
| find_lobby (config_id : Z)
| set_host (host_type : host_type) (host_address : string) (host_port : Z)
           (session_token : option string)
| leave (lobby_id : Z) (session_token : option string).

Inductive transport_call :=
| socket_connect (s : PhoenixSocket)
| socket_disconnect (s : PhoenixSocket)
| socket_channel (ch : Channel)
| channel_join (ch : Channel)
| channel_on (ch : Channel) (event : string)
| channel_push (ch : Channel) (msg : message)
| channel_leave (ch : Channel).

(** ** Local events *)

Inductive event :=
| connected (configs : list MatchmakingConfig.t)
| lobbyFound (lobby : Lobby.t)
| lobbyJoined (lobby : Lobby.t)
| hostInfoSet (hostInfo : HostInfo.t)
| lobbyLeft (lobbyId : Z)
| playerJoined (player : Player.t) (lobby : Lobby.t)
| playerLeft (player : Player.t) (lobby : Lobby.t)
| statusChanged (status : lobby_status) (lobby : Lobby.t)
| hostChanged (host : HostDescriptor.t) (lobby : Lobby.t)
| lobbyUpdate (lobby : Lobby.t)
| error (e : js_error)
| socketError (e : js_error)
| socketClosed
| disconnected.

(** Arguments of [console.log]. [text_json p l] is the template literal
    made of [p] followed by [JSON.stringify(l)]. *)
Inductive log_arg :=
| text (s : string)
| text_json (prefix : string) (l : Lobby.t)
| object (e : error_payload)
| any (j : json).

Inductive effect :=
| emit (e : event)
| console_log (args : list log_arg)
| transport (c : transport_call).

(** ** The client object *)

Record MatchmakeClient :=
  { socket : PhoenixSocket;
    appChannel : option Channel;
    lobbyChannel : option Channel;
    sessionToken : option string;
    debugEnabled : bool;
    currentLobby : option Lobby.t }.

Definition with_appChannel (v : option Channel) (c : MatchmakeClient) :=
  {| socket := socket c; appChannel := v; lobbyChannel := lobbyChannel c;
     sessionToken := sessionToken c; debugEnabled := debugEnabled c;
     currentLobby := currentLobby c |}.

Definition with_lobbyChannel (v : option Channel) (c : MatchmakeClient) :=
  {| socket := socket c; appChannel := appChannel c; lobbyChannel := v;
     sessionToken := sessionToken c; debugEnabled := debugEnabled c;
     currentLobby := currentLobby c |}.

Definition with_sessionToken (v : option string) (c : MatchmakeClient) :=
  {| socket := socket c; appChannel := appChannel c;
     lobbyChannel := lobbyChannel c; sessionToken := v;
     debugEnabled := debugEnabled c; currentLobby := currentLobby c |}.

Definition with_debugEnabled (v : bool) (c : MatchmakeClient) :=
  {| socket := socket c; appChannel := appChannel c;
     lobbyChannel := lobbyChannel c; sessionToken := sessionToken c;
     debugEnabled := v; currentLobby := currentLobby c |}.

Definition with_currentLobby (v : option Lobby.t) (c : MatchmakeClient) :=
  {| socket := socket c; appChannel := appChannel c;
     lobbyChannel := lobbyChannel c; sessionToken := sessionToken c;
     debugEnabled := debugEnabled c; currentLobby := v |}.

(** ** The monad of method bodies *)

Inductive completion (A : Type) :=
| normal (a : A)
| throw (e : js_error).
Arguments normal {A} a.
Arguments throw {A} e.

Record run (A : Type) := Run
  { outcome : completion A; final : MatchmakeClient; trace : list effect }.
Arguments Run {A} outcome final trace.
Arguments outcome {A} r.
Arguments final {A} r.
Arguments trace {A} r.

Definition M (A : Type) : Type := MatchmakeClient → run A.

Definition ret {A} (a : A) : M A := λ c, Run (normal a) c [].

Definition bind {A B} (m : M A) (k : A → M B) : M B := λ c,
  match m c with
  | Run (normal a) c1 t1 =>
      match k a c1 with
      | Run o c2 t2 => Run o c2 (t1 ++ t2)
      end
  | Run (throw e) c1 t1 => Run (throw e) c1 t1
  end.

Notation "x <- m ;; k" := (bind m (λ x, k))
  (at level 100, m at next level, right associativity, only parsing).
Notation "m ;;; k" := (bind m (λ _, k))
  (at level 100, right associativity, only parsing).

Definition raise {A} (e : js_error) : M A := λ c, Run (throw e) c [].

(** [try { body } catch (error) { handler error }] *)
Definition try_catch {A} (body : M A) (handler : js_error → M A) : M A := λ c,
  match body c with
  | Run (normal a) c1 t1 => Run (normal a) c1 t1
  | Run (throw e) c1 t1 =>
      match handler e c1 with
      | Run o c2 t2 => Run o c2 (t1 ++ t2)
      end
  end.

Definition this : M MatchmakeClient := λ c, Run (normal c) c [].
Definition assign (f : MatchmakeClient → MatchmakeClient) : M unit :=
  λ c, Run (normal tt) (f c) [].
Definition perform (e : effect) : M unit := λ c, Run (normal tt) c [e].

Definition this_emit (e : event) : M unit := perform (emit e).
Definition call (t : transport_call) : M unit := perform (transport t).

(** [xs.forEach(f)] *)
Fixpoint forEach {A} (f : A → M unit) (xs : list A) : M unit :=
  match xs with
  | [] => ret tt
  | x :: xs' => f x ;;; forEach f xs'
  end.

Definition when (b : bool) (m : M unit) : M unit := if b then m else ret tt.

(** ** Methods of [MatchmakeClient] *)

Definition debugLog (args : list log_arg) : M unit :=
  c <- this ;;
  when (debugEnabled c) (perform (console_log (text "[MatchmakeClient]" :: args))).

Definition setDebug (enabled : bool) : M unit :=
  assign (with_debugEnabled enabled).

Definition getCurrentLobby : M (option Lobby.t) :=
  c <- this ;; ret (currentLobby c).

Definition player_ids (ps : list Player.t) : gset Z :=
  list_to_set (Player.id <$> ps).

Definition onLobbyUpdate (lobby : Lobby.t) : M unit :=
  debugLog [text_json "Received lobby update: " lobby] ;;;
  c <- this ;;
  match currentLobby c with
  | Some cur =>
      let oldPlayerIds := player_ids (Lobby.players cur) in
      let newPlayerIds := player_ids (Lobby.players lobby) in
      forEach (λ player,
        when (bool_decide (Player.id player ∉ oldPlayerIds))
             (this_emit (playerJoined player lobby)))
        (Lobby.players lobby) ;;;
      forEach (λ player,
        when (bool_decide (Player.id player ∉ newPlayerIds))
             (this_emit (playerLeft player lobby)))
        (Lobby.players cur) ;;;
      when (bool_decide (Lobby.status lobby ≠ Lobby.status cur))
           (this_emit (statusChanged (Lobby.status lobby) lobby)) ;;;
      when (bool_decide (Lobby.host_address lobby ≠ Lobby.host_address cur)
            || bool_decide (Lobby.host_port lobby ≠ Lobby.host_port cur)
            || bool_decide (Lobby.host_type lobby ≠ Lobby.host_type cur))
           (this_emit (hostChanged
              {| HostDescriptor.type := Lobby.host_type lobby;
                 HostDescriptor.address := Lobby.host_address lobby;
                 HostDescriptor.port := Lobby.host_port lobby |} lobby))
  | None => ret tt
  end ;;;
  assign (with_currentLobby (Some lobby)) ;;;
  this_emit (lobbyUpdate lobby).

Definition onSocketError (err : json) : M unit :=
  debugLog [text "Socket error:"; any err] ;;;
  this_emit (socketError (mk_error ConnectionError "WebSocket connection error")).

Definition onSocketClose : M unit :=
  debugLog [text "Socket closed"] ;;;
  this_emit socketClosed.

(** *** The constructor *)

(** [typeof window === 'undefined'] tells the two runtimes apart. Under
    Node, [require('ws')] is taken to succeed. *)
Inductive runtime := node | browser.

Definition default_apiToken : string :=
  "of0FnIPtpGEtIfEMliuEawiMkGYoLImS1csN9dHYZA0=".

Definition no_options : ClientOptions.t :=
  {| ClientOptions.apiToken := None; ClientOptions.debug := None |}.

Definition new_MatchmakeClient
    (rt : runtime) (endpoint : string) (options : ClientOptions.t)
  : MatchmakeClient :=
  let apiToken := or_else (ClientOptions.apiToken options) default_apiToken in
  {| debugEnabled := default false (ClientOptions.debug options);
     socket :=
       match rt with
       | node =>
           {| endpoint := endpoint;
              transport_headers := [("x-authorization", "Bearer " +:+ apiToken)];
              params := [] |}
       | browser =>
           {| endpoint := endpoint;
              transport_headers := [];
              params := [("token", apiToken)] |}
       end;
     appChannel := None;
     lobbyChannel := None;
     sessionToken := None;
     currentLobby := None |}.

(** *** Asynchronous methods *)

(** [this.appChannel.prop] and [this.lobbyChannel.prop]: reading a property
    of a channel that is not there throws. *)
Definition this_appChannel (prop : string) : M Channel :=
  c <- this ;;
  match appChannel c with
  | Some ch => ret ch
  | None => raise (TypeError_of_undefined prop)
  end.

Definition this_lobbyChannel (prop : string) : M Channel :=
  c <- this ;;
  match lobbyChannel c with
  | Some ch => ret ch
  | None => raise (TypeError_of_undefined prop)
  end.

(** [catch (error) { this.emit('error', error); throw error; }] *)
Definition emit_and_rethrow {A} (e : js_error) : M A :=
  this_emit (error e) ;;; raise e.

Definition unknown (r : option string) : string := or_else r "Unknown error".

Definition connect_start (options : ConnectOptions.t) : M unit :=
  debugLog [text "Connecting to socket..."] ;;;
  c <- this ;;
  call (socket_connect (socket c)) ;;;
  debugLog [text "Creating app channel..."] ;;;
  let ch := {| topic := "app:auth";
               chan_params :=
                 [("player_slug", Some (ConnectOptions.playerSlug options));
                  ("ip_address", Some (ConnectOptions.ipAddress options))] |} in
  call (socket_channel ch) ;;;
  assign (with_appChannel (Some ch)) ;;;
  try_catch
    (ch <- this_appChannel "join" ;; call (channel_join ch))
    emit_and_rethrow.

Definition connect_resume (a : ack ConnectResponse.t)
  : M (list MatchmakingConfig.t) :=
  try_catch
    (response <-
       match a with
       | ack_ok resp =>
           debugLog [text "App channel joined successfully"] ;;; ret resp
       | ack_error err =>
           debugLog [text "App channel join failed:"; object err] ;;;
           raise (mk_error ConnectionError
                    ("Failed to join app channel: " +:+ unknown (reason err)))
       end ;;
     assign (with_sessionToken (Some (ConnectResponse.session_token response))) ;;;
     this_emit (connected (ConnectResponse.active_configs response)) ;;;
     ret (ConnectResponse.active_configs response))
    emit_and_rethrow.

Definition findLobby_start (configId : Z) : M unit :=
  debugLog [text ("Finding lobby for config " +:+ pretty configId +:+ "...")] ;;;
  try_catch
    (ch <- this_appChannel "push" ;;
     call (channel_push ch (find_lobby configId)))
    emit_and_rethrow.

Definition findLobby_resume (a : ack LobbyResponse.t) : M Lobby.t :=
  try_catch
    (response <-
       match a with
       | ack_ok resp => ret resp
       | ack_error err =>
           raise (mk_error LobbyError
                    ("Failed to find lobby: " +:+ unknown (reason err)))
       end ;;
     let lobby := LobbyResponse.lobby response in
     debugLog [text ("Found lobby " +:+ pretty (Lobby.id lobby))] ;;;
     this_emit (lobbyFound lobby) ;;;
     ret lobby)
    emit_and_rethrow.

Definition joinLobby_start (lobby : Lobby.t) : M unit :=
  c <- this ;;
  if negb (truthy (sessionToken c))
  then raise (mk_error ConnectionError "Not connected")
  else
    debugLog [text ("Joining lobby " +:+ pretty (Lobby.id lobby) +:+ "...")] ;;;
    let ch := {| topic := "lobby:" +:+ pretty (Lobby.id lobby);
                 chan_params := [("session_token", sessionToken c)] |} in
    call (socket_channel ch) ;;;
    assign (with_lobbyChannel (Some ch)) ;;;
    call (channel_on ch "lobby_update") ;;;
    try_catch
      (ch <- this_lobbyChannel "join" ;; call (channel_join ch))
      (λ e, assign (with_lobbyChannel None) ;;; emit_and_rethrow e).

Definition joinLobby_resume (a : ack LobbyResponse.t) : M Lobby.t :=
  try_catch
    (response <-
       match a with
       | ack_ok resp =>
           debugLog [text "Lobby joined successfully"] ;;; ret resp
       | ack_error err =>
           debugLog [text "Lobby join failed:"; object err] ;;;
           raise (mk_error LobbyError
                    ("Failed to join lobby: " +:+ unknown (reason err)))
       end ;;
     let lobby := LobbyResponse.lobby response in
     assign (with_currentLobby (Some lobby)) ;;;
     this_emit (lobbyJoined lobby) ;;;
     ret lobby)
    (λ e, assign (with_lobbyChannel None) ;;; emit_and_rethrow e).

Definition host_type_text (t : host_type) : string :=
  match t with p2p => "p2p" | dedicated => "dedicated" end.

Definition setHostInfo_start (hostInfo : HostInfo.t) : M unit :=
  c <- this ;;
  if negb (bool_decide (is_Some (lobbyChannel c)))
  then raise (mk_error LobbyError "Not in a lobby")
  else if negb (truthy (sessionToken c))
  then raise (mk_error ConnectionError "Not connected")
  else
    debugLog [text ("Setting host info: "
                    +:+ host_type_text (HostInfo.type hostInfo) +:+ " "
                    +:+ HostInfo.address hostInfo +:+ ":"
                    +:+ pretty (HostInfo.port hostInfo))] ;;;
    try_catch
      (ch <- this_lobbyChannel "push" ;;
       c <- this ;;
       call (channel_push ch
               (set_host (HostInfo.type hostInfo) (HostInfo.address hostInfo)
                         (HostInfo.port hostInfo) (sessionToken c))))
      emit_and_rethrow.

Definition setHostInfo_resume (hostInfo : HostInfo.t) (a : ack unit) : M unit :=
  try_catch
    (match a with
     | ack_ok _ => debugLog [text "Host info set successfully"]
     | ack_error err =>
         debugLog [text "Failed to set host info:"; object err] ;;;
         raise (mk_error LobbyError
                  ("Failed to set host info: " +:+ unknown (reason err)))
     end ;;;
     this_emit (hostInfoSet hostInfo))
    emit_and_rethrow.

Definition this_currentLobby (prop : string) : M Lobby.t :=
  c <- this ;;
  match currentLobby c with
  | Some l => ret l
  | None => raise (TypeError_of_undefined prop)
  end.

(** The start of [leaveLobby] returns the [lobbyId] it captured. *)
Definition leaveLobby_start : M Z :=
  c <- this ;;
  if negb (bool_decide (is_Some (lobbyChannel c)))
     || negb (truthy (sessionToken c))
     || negb (bool_decide (is_Some (currentLobby c)))
  then raise (mk_error LobbyError "Not in a lobby")
  else
    cur <- this_currentLobby "id" ;;
    let lobbyId := Lobby.id cur in
    debugLog [text ("Leaving lobby " +:+ pretty lobbyId +:+ "...")] ;;;
    try_catch
      (ch <- this_lobbyChannel "push" ;;
       c <- this ;;
       call (channel_push ch (leave lobbyId (sessionToken c))) ;;;
       ret lobbyId)
      emit_and_rethrow.

Definition leaveLobby_resume (lobbyId : Z) (a : ack unit) : M unit :=
  try_catch
    (match a with
     | ack_ok _ => debugLog [text "Left lobby successfully"]
     | ack_error err =>
         debugLog [text "Failed to leave lobby:"; object err] ;;;
         raise (mk_error LobbyError
                  ("Failed to leave lobby: " +:+ unknown (reason err)))
     end ;;;
     ch <- this_lobbyChannel "leave" ;;
     call (channel_leave ch) ;;;
     assign (with_lobbyChannel None) ;;;
     assign (with_currentLobby None) ;;;
     this_emit (lobbyLeft lobbyId))
    emit_and_rethrow.

Definition disconnect : M unit :=
  debugLog [text "Disconnecting..."] ;;;
  c <- this ;;
  match lobbyChannel c with
  | Some ch => call (channel_leave ch) ;;; assign (with_lobbyChannel None)
  | None => ret tt
  end ;;;
  match appChannel c with
  | Some ch => call (channel_leave ch)
  | None => ret tt
  end ;;;
  call (socket_disconnect (socket c)) ;;;
  assign (with_currentLobby None) ;;;
  this_emit disconnected.

(** *** Uninterrupted runs

    An asynchronous method together with the acknowledgement of its
    request, when nothing else happens in between. *)

Definition connect (options : ConnectOptions.t) (a : ack ConnectResponse.t)
  : M (list MatchmakingConfig.t) :=
  connect_start options ;;; connect_resume a.

Definition findLobby (configId : Z) (a : ack LobbyResponse.t) : M Lobby.t :=
  findLobby_start configId ;;; findLobby_resume a.

Definition joinLobby (lobby : Lobby.t) (a : ack LobbyResponse.t) : M Lobby.t :=
  joinLobby_start lobby ;;; joinLobby_resume a.

Definition findAndJoinLobby (configId : Z) (found joined : ack LobbyResponse.t)
  : M Lobby.t :=
  lobby <- findLobby configId found ;;
  joinLobby lobby joined.

Definition setHostInfo (hostInfo : HostInfo.t) (a : ack unit) : M unit :=
  setHostInfo_start hostInfo ;;; setHostInfo_resume hostInfo a.

Definition leaveLobby (a : ack unit) : M unit :=
  lobbyId <- leaveLobby_start ;; leaveLobby_resume lobbyId a.

(** ** Reading a trace *)

Definition emitted (tr : list effect) : list event :=
  omap (λ e, match e with emit ev => Some ev | _ => None end) tr.

Definition transport_calls (tr : list effect) : list transport_call :=
  omap (λ e, match e with transport t => Some t | _ => None end) tr.

(** ** Examples *)

Definition alice := {| Player.id := 1; Player.slug := "alice"; Player.joined_at := "t0" |}.
Definition bob := {| Player.id := 2; Player.slug := "bob"; Player.joined_at := "t1" |}.
Definition carol := {| Player.id := 3; Player.slug := "carol"; Player.joined_at := "t2" |}.

Definition lobby_of (i : Z) (st : lobby_status) (ps : list Player.t) : Lobby.t :=
  {| Lobby.id := i; Lobby.name := "room"; Lobby.status := st;
     Lobby.max_players := 4; Lobby.host_type := None;
     Lobby.host_address := None; Lobby.host_port := None;
     Lobby.metadata := []; Lobby.players := ps; Lobby.created_at := "t0" |}.

Definition fresh_client : MatchmakeClient :=
  new_MatchmakeClient node "wss://example.com/socket" no_options.

(** ** Specification-level definitions *)

(** ** The lobby-update handler *)

(** The players of [next] whose identifier is not in [previous], in the
    order of [next.players]. *)
Definition joined_players (previous next : Lobby.t) : list Player.t :=
  filter (λ p, Player.id p ∉ (Player.id <$> Lobby.players previous))
         (Lobby.players next).

(** The players of [previous] whose identifier is not in [next], in the
    order of [previous.players]. *)
Definition left_players (previous next : Lobby.t) : list Player.t :=
  filter (λ p, Player.id p ∉ (Player.id <$> Lobby.players next))
         (Lobby.players previous).

Definition host_differs (previous next : Lobby.t) : Prop :=
  Lobby.host_type next ≠ Lobby.host_type previous
  ∨ Lobby.host_address next ≠ Lobby.host_address previous
  ∨ Lobby.host_port next ≠ Lobby.host_port previous.

Global Instance host_differs_dec previous next :
  Decision (host_differs previous next).
Proof. unfold host_differs. apply _. Defined.

Definition host_of (l : Lobby.t) : HostDescriptor.t :=
  {| HostDescriptor.type := Lobby.host_type l;
     HostDescriptor.address := Lobby.host_address l;
     HostDescriptor.port := Lobby.host_port l |}.

(** The sequence of events the specification gives for a pair of
    snapshots. *)
Definition diff_events (previous next : Lobby.t) : list event :=
  ((λ p, playerJoined p next) <$> joined_players previous next)
  ++ ((λ p, playerLeft p next) <$> left_players previous next)
  ++ (if decide (Lobby.status next ≠ Lobby.status previous)
      then [statusChanged (Lobby.status next) next] else [])
  ++ (if decide (host_differs previous next)
      then [hostChanged (host_of next) next] else [])
  ++ [lobbyUpdate next].

Definition is_hostChanged (ev : event) : bool :=
  match ev with hostChanged _ _ => true | _ => false end.

(** Unfolds a method body down to the primitives of the monad. *)
Ltac unfold_methods :=
  unfold findAndJoinLobby;
  unfold connect, findLobby, joinLobby, setHostInfo,
    leaveLobby, connect_start, connect_resume, findLobby_start,
    findLobby_resume, joinLobby_start, joinLobby_resume, setHostInfo_start,
    setHostInfo_resume, leaveLobby_start, leaveLobby_resume, disconnect,
    setDebug, getCurrentLobby, onSocketError, onSocketClose,
    this_appChannel, this_lobbyChannel, this_currentLobby, emit_and_rethrow,
    debugLog, this_emit, call.

Ltac run_methods :=
  unfold_methods;
  unfold bind, try_catch, this, assign, perform, raise, ret, when;
  cbn -[pretty String.append truthy].

Definition not_in_a_lobby : js_error := mk_error LobbyError "Not in a lobby".
Definition not_connected : js_error := mk_error ConnectionError "Not connected".

Definition a_host : HostInfo.t :=
  {| HostInfo.type := p2p; HostInfo.address := "1.2.3.4"; HostInfo.port := 7000 |}.

(** ** The client in its environment

    Between two turns of the event loop the application calls a method, the
    transport delivers the acknowledgement of an outstanding request, a
    [lobby_update] push arrives, or the socket reports an error or closes.
    An asynchronous method whose request went out is kept as a [continuation]
    together with the local variables its continuation captured. *)

Inductive continuation :=
| awaiting_connect
| awaiting_findLobby (then_join : bool)
| awaiting_joinLobby
| awaiting_setHostInfo (hostInfo : HostInfo.t)
| awaiting_leaveLobby (lobbyId : Z).

Inductive api_call :=
| call_setDebug (enabled : bool)
| call_connect (options : ConnectOptions.t)
| call_findLobby (configId : Z)
| call_joinLobby (lobby : Lobby.t)
| call_findAndJoinLobby (configId : Z)
| call_setHostInfo (hostInfo : HostInfo.t)
| call_leaveLobby
| call_disconnect
| call_getCurrentLobby.

Inductive reply :=
| reply_connect (a : ack ConnectResponse.t)
| reply_lobby (a : ack LobbyResponse.t)
| reply_void (a : ack unit).

Inductive input :=
| invoke (m : api_call)
| deliver (n : nat) (r : reply)
| push_lobby_update (lobby : Lobby.t)
| socket_error (err : json)
| socket_close.

Inductive value :=
| v_void
| v_configs (configs : list MatchmakingConfig.t)
| v_lobby (lobby : Lobby.t)
| v_current (lobby : option Lobby.t).

(** What an observer sees: the effects, what a synchronous method returned
    and how a promise settled. *)
Inductive output :=
| did (e : effect)
| returned (v : value)
| threw (e : js_error)
| resolved (v : value)
| rejected (e : js_error).

Record system := { client : MatchmakeClient; waiting : list continuation }.

Definition settle {A} (inj : A → value) (r : run A) (ws : list continuation)
  : system * list output :=
  ({| client := final r; waiting := ws |},
   (did <$> trace r)
   ++ [match outcome r with
       | normal a => resolved (inj a)
       | throw e => rejected e
       end]).

Definition await {A} (p : A → continuation) (r : run A) (ws : list continuation)
  : system * list output :=
  match outcome r with
  | normal a =>
      ({| client := final r; waiting := ws ++ [p a] |}, did <$> trace r)
  | throw e =>
      ({| client := final r; waiting := ws |},
       (did <$> trace r) ++ [rejected e])
  end.

Definition sync {A} (inj : A → value) (r : run A) (ws : list continuation)
  : system * list output :=
  ({| client := final r; waiting := ws |},
   (did <$> trace r)
   ++ [match outcome r with
       | normal a => returned (inj a)
       | throw e => threw e
       end]).

Definition handler (r : run unit) (ws : list continuation) : system * list output :=
  ({| client := final r; waiting := ws |}, did <$> trace r).

Definition step (i : input) (s : system) : system * list output :=
  let c := client s in
  let ws := waiting s in
  match i with
  | invoke (call_setDebug enabled) =>
      sync (λ _, v_void) (setDebug enabled c) ws
  | invoke (call_connect options) =>
      await (λ _, awaiting_connect) (connect_start options c) ws
  | invoke (call_findLobby configId) =>
      await (λ _, awaiting_findLobby false) (findLobby_start configId c) ws
  | invoke (call_findAndJoinLobby configId) =>
      await (λ _, awaiting_findLobby true) (findLobby_start configId c) ws
  | invoke (call_joinLobby lobby) =>
      await (λ _, awaiting_joinLobby) (joinLobby_start lobby c) ws
  | invoke (call_setHostInfo hostInfo) =>
      await (λ _, awaiting_setHostInfo hostInfo) (setHostInfo_start hostInfo c) ws
  | invoke call_leaveLobby =>
      await awaiting_leaveLobby (leaveLobby_start c) ws
  | invoke call_disconnect =>
      sync (λ _, v_void) (disconnect c) ws
  | invoke call_getCurrentLobby =>
      sync v_current (getCurrentLobby c) ws
  | deliver n r =>
      match ws !! n, r with
      | Some awaiting_connect, reply_connect a =>
          settle v_configs (connect_resume a c) (delete n ws)
      | Some (awaiting_findLobby false), reply_lobby a =>
          settle v_lobby (findLobby_resume a c) (delete n ws)
      | Some (awaiting_findLobby true), reply_lobby a =>
          await (λ _, awaiting_joinLobby)
            ((lobby <- findLobby_resume a ;; joinLobby_start lobby) c)
            (delete n ws)
      | Some awaiting_joinLobby, reply_lobby a =>
          settle v_lobby (joinLobby_resume a c) (delete n ws)
      | Some (awaiting_setHostInfo hostInfo), reply_void a =>
          settle (λ _, v_void) (setHostInfo_resume hostInfo a c) (delete n ws)
      | Some (awaiting_leaveLobby lobbyId), reply_void a =>
          settle (λ _, v_void) (leaveLobby_resume lobbyId a c) (delete n ws)
      | _, _ => (s, [])
      end
  | push_lobby_update lobby => handler (onLobbyUpdate lobby c) ws
  | socket_error err => handler (onSocketError err c) ws
  | socket_close => handler (onSocketClose c) ws
  end.

Fixpoint steps (ins : list input) (s : system) : system * list output :=
  match ins with
  | [] => (s, [])
  | i :: ins' =>
      let '(s1, o1) := step i s in
      let '(s2, o2) := steps ins' s1 in
      (s2, o1 ++ o2)
  end.

(** [new MatchmakeClient(endpoint, options)] with nothing outstanding. *)
Definition boot (rt : runtime) (endpoint : string) (options : ClientOptions.t)
  : system :=
  {| client := new_MatchmakeClient rt endpoint options; waiting := [] |}.

(** *** Observations that ignore the console *)

Definition is_console_log (o : output) : bool :=
  match o with did (console_log _) => true | _ => false end.

(** The outputs other than [console.log]. *)
Definition quiet (os : list output) : list output :=
  filter (λ o, is_console_log o = false) os.

(** The client with its debug flag forgotten. *)
Definition mute (c : MatchmakeClient) : MatchmakeClient :=
  with_debugEnabled false c.

(** Two systems that differ at most in the debug flag. *)
Definition same_but_debug (s1 s2 : system) : Prop :=
  mute (client s1) = mute (client s2) ∧ waiting s1 = waiting s2.

(** Two inputs that differ at most in the argument of [setDebug]. *)
Inductive same_input : input → input → Prop :=
| same_input_refl i : same_input i i
| same_input_setDebug b1 b2 :
    same_input (invoke (call_setDebug b1)) (invoke (call_setDebug b2)).

Definition a_lobby_response (l : Lobby.t) : LobbyResponse.t :=
  {| LobbyResponse.lobby := l |}.

Definition a_connect_response : ConnectResponse.t :=
  {| ConnectResponse.active_configs := [];
     ConnectResponse.session_token := "tok" |}.

Definition some_options : ConnectOptions.t :=
  {| ConnectOptions.playerSlug := "player123";
     ConnectOptions.ipAddress := "127.0.0.1" |}.

(** A client after [connect] was acknowledged with [a_connect_response]. *)
Definition connected_client : MatchmakeClient :=
  final (connect some_options (ack_ok a_connect_response) fresh_client).

(** Two runs that agree on everything but the console and the debug
    flag. *)
Definition agree {A} (r1 r2 : run A) : Prop :=
  outcome r1 = outcome r2
  ∧ mute (final r1) = mute (final r2)
  ∧ quiet (did <$> trace r1) = quiet (did <$> trace r2).

(** Two method bodies that, started from clients differing at most in the
    debug flag, produce agreeing runs. *)
Definition debug_blind {A} (m1 m2 : M A) : Prop :=
  ∀ c1 c2, mute c1 = mute c2 → agree (m1 c1) (m2 c2).

(** A method body that keeps the invariant [I] of the client and whose
    effects all satisfy [Q]. *)
Definition maintains {A} (I : MatchmakeClient → Prop) (Q : effect → Prop)
    (m : M A) : Prop :=
  ∀ c, I c → I (final (m c)) ∧ Forall Q (trace (m c)).

(** [Q] on the effects among the outputs. *)
Definition on_effects (Q : effect → Prop) (o : output) : Prop :=
  match o with did e => Q e | _ => True end.

(** The effect is not a [socket.connect()], or it connects [s]. *)
Definition connects_with (s : PhoenixSocket) (e : effect) : Prop :=
  match e with transport (socket_connect s') => s' = s | _ => True end.

(** The input is not an ["ok"] acknowledgement of an outstanding
    [connect]. *)
Definition not_connect_ok (i : input) (ws : list continuation) : Prop :=
  match i with
  | deliver n (reply_connect (ack_ok _)) => ws !! n ≠ Some awaiting_connect
  | _ => True
  end.

(** No input is an ["ok"] acknowledgement of an outstanding [connect]. *)
Fixpoint never_connected (ins : list input) (s : system) : Prop :=
  match ins with
  | [] => True
  | i :: ins' =>
      not_connect_ok i (waiting s) ∧ never_connected ins' (step i s).1
  end.

(** Two scripts that differ only in the argument of [setDebug]. *)
Definition a_session (debug : bool) : list input :=
  [ invoke (call_setDebug debug);
    invoke (call_connect some_options);
    deliver 0 (reply_connect (ack_ok a_connect_response));
    invoke (call_findAndJoinLobby 7);
    deliver 0 (reply_lobby (ack_ok (a_lobby_response (lobby_of 12 open [alice]))));
    deliver 0 (reply_lobby (ack_ok (a_lobby_response (lobby_of 12 open [alice]))));
    push_lobby_update (lobby_of 12 full [alice; bob]);
    invoke call_leaveLobby;
    deliver 0 (reply_void (ack_error {| reason := None |}));
    invoke call_disconnect ].

(** A [connect] that the server refuses, followed by a [findLobby]. *)
Definition a_refused_session : list input :=
  [ invoke (call_connect some_options);
    deliver 0 (reply_connect (ack_error {| reason := Some "bad token" |}));
    invoke (call_findLobby 1) ].

(** ** Further definitions used in statements *)

(** The channel [connect] creates. *)
Definition app_channel (options : ConnectOptions.t) : Channel :=
  {| topic := "app:auth";
     chan_params :=
       [("player_slug", Some (ConnectOptions.playerSlug options));
        ("ip_address", Some (ConnectOptions.ipAddress options))] |}.

(** The channel [joinLobby] creates for the lobby [id] under the session
    token [tok]. *)
Definition lobby_channel (id : Z) (tok : option string) : Channel :=
  {| topic := "lobby:" +:+ pretty id;
     chan_params := [("session_token", tok)] |}.

(** [connect] has been called: there is an app channel, on ["app:auth"]. *)
Definition has_app_channel (c : MatchmakeClient) : Prop :=
  match appChannel c with
  | Some ch => topic ch = "app:auth"
  | None => False
  end.

(** The session token a request or a lobby channel carries, if it is one
    of those that carry a token. *)
Definition token_sent (t : transport_call) : option (option string) :=
  match t with
  | channel_push _ (set_host _ _ _ tok) => Some tok
  | channel_push _ (leave _ tok) => Some tok
  | socket_channel ch =>
      match chan_params ch with
      | [("session_token", tok)] => Some tok
      | _ => None
      end
  | _ => None
  end.

(** The effect sends no token, or a truthy one. *)
Definition sends_truthy_token (e : effect) : Prop :=
  match e with
  | transport t =>
      match token_sent t with
      | Some tok => truthy tok = true
      | None => True
      end
  | _ => True
  end.

(** The effect is not a [console.log]. *)
Definition silent (e : effect) : Prop :=
  match e with console_log _ => False | _ => True end.

(** The input is not a call of [setDebug(true)]. *)
Definition not_enabling_debug (i : input) : Prop :=
  match i with invoke (call_setDebug true) => False | _ => True end.

(** The example script (examples/basic-usage): connect, find and join a
    lobby for configuration 1, leave it, disconnect; every request is
    acknowledged with ["ok"]. *)
Definition runExample (cr : ConnectResponse.t) (found joined : LobbyResponse.t)
  : list input :=
  [ invoke (call_connect some_options);
    deliver 0 (reply_connect (ack_ok cr));
    invoke (call_findAndJoinLobby 1);
    deliver 0 (reply_lobby (ack_ok found));
    deliver 0 (reply_lobby (ack_ok joined));
    invoke call_leaveLobby;
    deliver 0 (reply_void (ack_ok tt));
    invoke call_disconnect ].

(** The events among the outputs. *)
Definition events_of (os : list output) : list event :=
  omap (λ o, match o with did (emit ev) => Some ev | _ => None end) os.

(** The settlements and return values among the outputs. *)
Definition results_of (os : list output) : list output :=
  omap (λ o, match o with did _ => None | _ => Some o end) os.

(** The calls on the transport among the outputs. *)
Definition calls_of (os : list output) : list transport_call :=
  omap (λ o, match o with did (transport t) => Some t | _ => None end) os.

(** [leaveLobby] called twice before the first acknowledgement, both
    requests acknowledged with ["ok"]. *)
Definition leave_twice : list input :=
  [ invoke call_leaveLobby;
    invoke call_leaveLobby;
    deliver 0 (reply_void (ack_ok tt));
    deliver 0 (reply_void (ack_ok tt)) ].

(** The credential the socket presents: the bearer header under Node, the
    [token] parameter in a browser. *)
Definition credential (rt : runtime) (tok : string) : PhoenixSocket → Prop :=
  λ s,
    match rt with
    | node =>
        transport_headers s = [("x-authorization", "Bearer " +:+ tok)]
        ∧ params s = []
    | browser =>
        transport_headers s = [] ∧ params s = [("token", tok)]
    end.

(** ** Basic facts about the monad *)

Section monad_facts.
Context {A B : Type}.

Lemma bind_normal (m : M A) (k : A → M B) c a c1 t1 :
  m c = Run (normal a) c1 t1 →
  bind m k c =
    Run (outcome (k a c1)) (final (k a c1)) (t1 ++ trace (k a c1)).
Proof. intros H. unfold bind. rewrite H. by destruct (k a c1). Qed.

Lemma bind_throw (m : M A) (k : A → M B) c e c1 t1 :
  m c = Run (throw e) c1 t1 →
  bind m k c = Run (throw e) c1 t1.
Proof. intros H. unfold bind. by rewrite H. Qed.

Lemma run_eta (r : run A) : Run (outcome r) (final r) (trace r) = r.
Proof. by destruct r. Qed.

Lemma bind_raise (e : js_error) (k : A → M B) c :
  bind (raise e) k c = raise e c.
Proof. done. Qed.

Lemma bind_assoc {C} (m : M A) (k1 : A → M B) (k2 : B → M C) c :
  bind (bind m k1) k2 c = bind m (λ a, bind (k1 a) k2) c.
Proof.
  unfold bind. destruct (m c) as [[a|e] c1 t1]; [|done].
  destruct (k1 a c1) as [[b|e] c2 t2]; [|done].
  destruct (k2 b c2) as [o c3 t3]. by rewrite app_assoc.
Qed.
End monad_facts.

Lemma emitted_app tr1 tr2 : emitted (tr1 ++ tr2) = emitted tr1 ++ emitted tr2.
Proof. apply omap_app. Qed.

Lemma transport_calls_app tr1 tr2 :
  transport_calls (tr1 ++ tr2) = transport_calls tr1 ++ transport_calls tr2.
Proof. apply omap_app. Qed.

Lemma emitted_emit (evs : list event) : emitted (emit <$> evs) = evs.
Proof.
  unfold emitted. induction evs as [|e evs IH]; [done|]. cbn. by f_equal.
Qed.

Lemma transport_calls_emit (evs : list event) :
  transport_calls (emit <$> evs) = [].
Proof.
  unfold transport_calls. induction evs as [|e evs IH]; [done|]. by cbn.
Qed.

(** [debugLog] neither emits, nor talks to the transport, nor changes the
    client, nor throws. *)
Lemma debugLog_run args c :
  debugLog args c
  = Run (normal tt) c
      (if debugEnabled c
       then [console_log (text "[MatchmakeClient]" :: args)] else []).
Proof. unfold debugLog, bind, this, when. by destruct (debugEnabled c). Qed.

(** A [forEach] whose body emits one event for the elements that pass a
    test emits the events of the filtered list, in the list's order. *)
Lemma forEach_when_emit {A} (P : A → Prop) `{!∀ x, Decision (P x)}
    (ev : A → event) (xs : list A) c :
  forEach (λ x, when (bool_decide (P x)) (this_emit (ev x))) xs c
  = Run (normal tt) c (emit <$> (ev <$> filter P xs)).
Proof.
  induction xs as [|x xs IH]; [done|].
  cbn [forEach]. unfold bind.
  destruct (decide (P x)) as [HP|HP].
  - rewrite (bool_decide_eq_true_2 _ HP), (filter_cons_True _ _ _ HP).
    cbn. by rewrite IH.
  - rewrite (bool_decide_eq_false_2 _ HP), (filter_cons_False _ _ _ HP).
    cbn. by rewrite IH.
Qed.

(** Membership in the [Set] of identifiers is membership in the roster. *)
Lemma player_ids_spec (i : Z) (ps : list Player.t) :
  i ∈ player_ids ps ↔ i ∈ (Player.id <$> ps).
Proof. unfold player_ids. apply elem_of_list_to_set. Qed.

Lemma filter_player_ids (ps qs : list Player.t) :
  filter (λ p, Player.id p ∉ player_ids ps) qs
  = filter (λ p, Player.id p ∉ (Player.id <$> ps)) qs.
Proof.
  apply list_filter_iff. intros p. by rewrite player_ids_spec.
Qed.

Lemma when_emit_run (b : bool) (ev : event) c :
  when b (this_emit ev) c = Run (normal tt) c (if b then [emit ev] else []).
Proof. by destruct b. Qed.

Lemma host_test_spec (previous next : Lobby.t) :
  bool_decide (Lobby.host_address next ≠ Lobby.host_address previous)
  || bool_decide (Lobby.host_port next ≠ Lobby.host_port previous)
  || bool_decide (Lobby.host_type next ≠ Lobby.host_type previous)
  = bool_decide (host_differs previous next).
Proof.
  unfold host_differs.
  repeat case_bool_decide; simpl; try done; exfalso; tauto.
Qed.

Lemma onLobbyUpdate_run c previous next :
  currentLobby c = Some previous →
  outcome (onLobbyUpdate next c) = normal tt ∧
  final (onLobbyUpdate next c) = with_currentLobby (Some next) c ∧
  emitted (trace (onLobbyUpdate next c)) = diff_events previous next ∧
  transport_calls (trace (onLobbyUpdate next c)) = [].
Proof.
  intros Hcur. unfold onLobbyUpdate, bind, this.
  rewrite debugLog_run, Hcur, !forEach_when_emit, !when_emit_run.
  rewrite host_test_spec, !filter_player_ids.
  cbn [outcome final trace assign this_emit perform].
  split_and!; try done.
  all: rewrite ?emitted_app, ?transport_calls_app, ?emitted_emit,
         ?transport_calls_emit.
  all: unfold diff_events, joined_players, left_players, host_of.
  all: destruct (debugEnabled c).
  all: repeat case_bool_decide; repeat case_decide; try done.
  all: cbn; by rewrite <- ?app_assoc.
Qed.

Lemma onLobbyUpdate_first c next :
  currentLobby c = None →
  outcome (onLobbyUpdate next c) = normal tt ∧
  final (onLobbyUpdate next c) = with_currentLobby (Some next) c ∧
  emitted (trace (onLobbyUpdate next c)) = [lobbyUpdate next] ∧
  transport_calls (trace (onLobbyUpdate next c)) = [].
Proof.
  intros Hcur. unfold onLobbyUpdate, bind, this.
  rewrite debugLog_run, Hcur.
  cbn [outcome final trace assign this_emit perform ret].
  by destruct (debugEnabled c).
Qed.

Lemma elem_of_diff_events (ev : event) (previous next : Lobby.t) :
  ev ∈ diff_events previous next ↔
    (∃ p, ev = playerJoined p next ∧ p ∈ joined_players previous next)
    ∨ (∃ p, ev = playerLeft p next ∧ p ∈ left_players previous next)
    ∨ (ev = statusChanged (Lobby.status next) next
       ∧ Lobby.status next ≠ Lobby.status previous)
    ∨ (ev = hostChanged (host_of next) next ∧ host_differs previous next)
    ∨ ev = lobbyUpdate next.
Proof.
  unfold diff_events.
  rewrite !elem_of_app, !list_elem_of_fmap, list_elem_of_singleton.
  repeat destruct (decide _);
    rewrite ?list_elem_of_singleton, ?elem_of_nil; naive_solver.
Qed.

Lemma joined_players_spec p previous next :
  p ∈ joined_players previous next ↔
    p ∈ Lobby.players next
    ∧ Player.id p ∉ (Player.id <$> Lobby.players previous).
Proof. unfold joined_players. rewrite list_elem_of_filter. tauto. Qed.

Lemma left_players_spec p previous next :
  p ∈ left_players previous next ↔
    p ∈ Lobby.players previous
    ∧ Player.id p ∉ (Player.id <$> Lobby.players next).
Proof. unfold left_players. rewrite list_elem_of_filter. tauto. Qed.

Lemma filter_hostChanged_fmap_joined (next : Lobby.t) (ps : list Player.t) :
  filter is_hostChanged ((λ p, playerJoined p next) <$> ps) = [].
Proof.
  induction ps as [|p ps IH]; [done|].
  rewrite fmap_cons, filter_cons_False; [exact IH|]. by intros [].
Qed.

Lemma filter_hostChanged_fmap_left (next : Lobby.t) (ps : list Player.t) :
  filter is_hostChanged ((λ p, playerLeft p next) <$> ps) = [].
Proof.
  induction ps as [|p ps IH]; [done|].
  rewrite fmap_cons, filter_cons_False; [exact IH|]. by intros [].
Qed.

Lemma filter_hostChanged_diff_events (previous next : Lobby.t) :
  filter is_hostChanged (diff_events previous next)
  = if decide (host_differs previous next)
    then [hostChanged (host_of next) next] else [].
Proof.
  unfold diff_events.
  rewrite !filter_app, filter_hostChanged_fmap_joined,
    filter_hostChanged_fmap_left.
  repeat case_decide; done.
Qed.

(** * Theorems *)

(** C1. With a cached snapshot [previous], one call of the lobby-update
    handler emits: [playerJoined] for the players of [next] whose id is not
    among those of [previous], in the order of [next.players]; then
    [playerLeft] for the players of [previous] whose id is not among those
    of [next], in the order of [previous.players]; then [statusChanged]
    exactly when the statuses differ; then [hostChanged] exactly when the
    host fields differ; then one [lobbyUpdate next]. The cache becomes
    [next]. The sequence depends on the two snapshots only, and no player
    id gets both a [playerJoined] and a [playerLeft]. *)
Theorem lobby_update_event_sequence
    (c : MatchmakeClient) (previous next : Lobby.t) :
  currentLobby c = Some previous →
  let r := onLobbyUpdate next c in
  outcome r = normal tt
  ∧ emitted (trace r)
    = ((λ p, playerJoined p next) <$>
         filter (λ p, Player.id p ∉ (Player.id <$> Lobby.players previous))
                (Lobby.players next))
      ++ ((λ p, playerLeft p next) <$>
            filter (λ p, Player.id p ∉ (Player.id <$> Lobby.players next))
                   (Lobby.players previous))
      ++ (if decide (Lobby.status next ≠ Lobby.status previous)
          then [statusChanged (Lobby.status next) next] else [])
      ++ (if decide (Lobby.host_type next ≠ Lobby.host_type previous
                     ∨ Lobby.host_address next ≠ Lobby.host_address previous
                     ∨ Lobby.host_port next ≠ Lobby.host_port previous)
          then [hostChanged (host_of next) next] else [])
      ++ [lobbyUpdate next]
  ∧ currentLobby (final r) = Some next
  ∧ (∀ c', currentLobby c' = Some previous →
           emitted (trace (onLobbyUpdate next c')) = emitted (trace r))
  ∧ (∀ p q l l',
       playerJoined p l ∈ emitted (trace r) →
       playerLeft q l' ∈ emitted (trace r) →
       Player.id p ≠ Player.id q).
Proof.
  intros Hcur r.
  destruct (onLobbyUpdate_run c previous next Hcur) as (Ho & Hf & He & _).
  subst r. split_and!.
  - done.
  - rewrite He. reflexivity.
  - by rewrite Hf.
  - intros c' Hcur'.
    destruct (onLobbyUpdate_run c' previous next Hcur') as (_ & _ & He' & _).
    by rewrite He, He'.
  - intros p q l l'. rewrite He, !elem_of_diff_events.
    intros [(p' & Hp & Hin)|[?|[?|[?|?]]]]; [|naive_solver..].
    intros [?|[(q' & Hq & Hin')|[?|[?|?]]]]; [naive_solver| |naive_solver..].
    simplify_eq.
    apply joined_players_spec in Hin as [_ Hnot].
    apply left_players_spec in Hin' as [Hq _].
    intros Heq. apply Hnot. rewrite Heq.
    apply list_elem_of_fmap. eauto.
Qed.

(** C1, at an instance: [alice, bob] becomes [bob, carol] and the lobby
    fills up. *)
Lemma lobby_update_event_sequence_witness :
  let previous := lobby_of 5 open [alice; bob] in
  let next := lobby_of 5 full [bob; carol] in
  let r := onLobbyUpdate next (with_currentLobby (Some previous) fresh_client) in
  emitted (trace r)
  = [playerJoined carol next; playerLeft alice next;
     statusChanged full next; lobbyUpdate next].
Proof.
  intros previous next r.
  pose proof (lobby_update_event_sequence
                (with_currentLobby (Some previous) fresh_client)
                previous next eq_refl) as (_ & He & _).
  etrans; [exact He|]. vm_compute. reflexivity.
Defined.

(** C2. Without a cached snapshot the handler emits one [lobbyUpdate next]
    and nothing else, and the cache becomes [next]. *)
Theorem lobby_update_first_snapshot (c : MatchmakeClient) (next : Lobby.t) :
  currentLobby c = None →
  let r := onLobbyUpdate next c in
  outcome r = normal tt
  ∧ emitted (trace r) = [lobbyUpdate next]
  ∧ currentLobby (final r) = Some next.
Proof.
  intros Hcur r.
  destruct (onLobbyUpdate_first c next Hcur) as (Ho & Hf & He & _).
  subst r. by rewrite Hf.
Qed.

Lemma lobby_update_first_snapshot_witness :
  let next := lobby_of 5 open [alice] in
  let r := onLobbyUpdate next fresh_client in
  outcome r = normal tt
  ∧ emitted (trace r) = [lobbyUpdate next]
  ∧ currentLobby (final r) = Some next.
Proof.
  exact (lobby_update_first_snapshot fresh_client (lobby_of 5 open [alice]) eq_refl).
Defined.

(** C5. With a cached snapshot, [hostChanged] is emitted exactly when host
    type, host address or host port differs between the two snapshots,
    each field compared on its own and an absent field differing from any
    present one; it is emitted once and carries the host fields of [next]
    and [next] itself. *)
Theorem host_changed_iff_field_differs
    (c : MatchmakeClient) (previous next : Lobby.t) :
  currentLobby c = Some previous →
  let evs := emitted (trace (onLobbyUpdate next c)) in
  let differs :=
    Lobby.host_type next ≠ Lobby.host_type previous
    ∨ Lobby.host_address next ≠ Lobby.host_address previous
    ∨ Lobby.host_port next ≠ Lobby.host_port previous in
  (∀ h l, hostChanged h l ∈ evs ↔
          differs
          ∧ h = {| HostDescriptor.type := Lobby.host_type next;
                   HostDescriptor.address := Lobby.host_address next;
                   HostDescriptor.port := Lobby.host_port next |}
          ∧ l = next)
  ∧ (differs → filter is_hostChanged evs = [hostChanged (host_of next) next])
  ∧ (¬ differs → filter is_hostChanged evs = [])
  ∧ (¬ ((Lobby.host_type previous = None ↔ Lobby.host_type next = None)
        ∧ (Lobby.host_address previous = None ↔ Lobby.host_address next = None)
        ∧ (Lobby.host_port previous = None ↔ Lobby.host_port next = None)) →
     hostChanged (host_of next) next ∈ evs).
Proof.
  intros Hcur evs differs.
  destruct (onLobbyUpdate_run c previous next Hcur) as (_ & _ & He & _).
  subst evs. rewrite He. clear He.
  assert (Hmem : ∀ h l, hostChanged h l ∈ diff_events previous next ↔
                        differs ∧ h = host_of next ∧ l = next).
  { intros h l. rewrite elem_of_diff_events. subst differs.
    unfold host_differs. naive_solver. }
  split_and!.
  - exact Hmem.
  - intros Hd. rewrite filter_hostChanged_diff_events.
    by rewrite decide_True.
  - intros Hd. rewrite filter_hostChanged_diff_events.
    by rewrite decide_False.
  - intros Habs. apply Hmem. split; [|done]. subst differs.
    destruct (Lobby.host_type previous), (Lobby.host_type next),
      (Lobby.host_address previous), (Lobby.host_address next),
      (Lobby.host_port previous), (Lobby.host_port next);
      try (exfalso; apply Habs; by split_and!); auto.
Qed.

(** C5, at an instance: only the host type changes, from [p2p] to
    [dedicated]. *)
Lemma host_changed_iff_field_differs_witness :
  let host t := {| Lobby.id := 5; Lobby.name := "room"; Lobby.status := open;
                   Lobby.max_players := 4; Lobby.host_type := Some t;
                   Lobby.host_address := Some "1.2.3.4";
                   Lobby.host_port := Some 7000; Lobby.metadata := [];
                   Lobby.players := [alice]; Lobby.created_at := "t0" |} in
  filter is_hostChanged
    (emitted (trace (onLobbyUpdate (host dedicated)
                       (with_currentLobby (Some (host p2p)) fresh_client))))
  = [hostChanged (host_of (host dedicated)) (host dedicated)].
Proof.
  intros host.
  pose proof (host_changed_iff_field_differs
                (with_currentLobby (Some (host p2p)) fresh_client)
                (host p2p) (host dedicated) eq_refl) as (_ & Hd & _).
  apply Hd. left. discriminate.
Defined.

(** ** Running the asynchronous methods *)

Lemma lobby_guards (c : MatchmakeClient) (hostInfo : HostInfo.t)
    (a a' : ack unit) :
  lobbyChannel c = None →
  sessionToken c = None →
  setHostInfo_start hostInfo c = Run (throw not_in_a_lobby) c []
  ∧ setHostInfo hostInfo a c = Run (throw not_in_a_lobby) c []
  ∧ leaveLobby_start c = Run (throw not_in_a_lobby) c []
  ∧ leaveLobby a' c = Run (throw not_in_a_lobby) c [].
Proof.
  intros Hch Htok. destruct c as [s app lch tok dbg cur].
  cbn in Hch, Htok. subst lch tok.
  split_and!; by run_methods.
Qed.

(** C3 as stated fails: on a freshly constructed client [setHostInfo]
    rejects with an error that is not a [ConnectionError]. *)
Lemma setHostInfo_fresh_is_lobby_error :
  ∃ e, outcome (setHostInfo a_host (ack_ok tt) fresh_client) = throw e
       ∧ instanceof_MatchmakeError e = true
       ∧ instanceof_ConnectionError e = false.
Proof. eexists. split; [reflexivity|]. by split. Qed.

(** C4 (amended). When the acknowledgement of a request is ["error"], each
    of [connect], [findLobby], [joinLobby], [setHostInfo] and [leaveLobby]
    rejects with a [MatchmakeError] (a [ConnectionError] for [connect], a
    [LobbyError] for the others) whose message ends with the server's
    reason, or "Unknown error", and emits exactly one [error] event, which
    carries that same error. A contract violation (the guards of
    [joinLobby], [setHostInfo] and [leaveLobby]) rejects with a typed error
    as well, but emits nothing. *)
Theorem failures_reject_and_emit
    (c : MatchmakeClient) (err : error_payload)
    (lobby : Lobby.t) (hostInfo : HostInfo.t) (lobbyId : Z) :
  let why := unknown (reason err) in
  let failed (A : Type) (r : run A) (cls : error_class) (msg : string) :=
    outcome r = throw (mk_error cls msg)
    ∧ emitted (trace r) = [error (mk_error cls msg)]
    ∧ transport_calls (trace r) = [] in
  failed _ (connect_resume (ack_error err) c)
    ConnectionError ("Failed to join app channel: " +:+ why)
  ∧ failed _ (findLobby_resume (ack_error err) c)
      LobbyError ("Failed to find lobby: " +:+ why)
  ∧ failed _ (joinLobby_resume (ack_error err) c)
      LobbyError ("Failed to join lobby: " +:+ why)
  ∧ failed _ (setHostInfo_resume hostInfo (ack_error err) c)
      LobbyError ("Failed to set host info: " +:+ why)
  ∧ failed _ (leaveLobby_resume lobbyId (ack_error err) c)
      LobbyError ("Failed to leave lobby: " +:+ why)
  ∧ (truthy (sessionToken c) = false →
     joinLobby_start lobby c = Run (throw not_connected) c [])
  ∧ (lobbyChannel c = None →
     setHostInfo_start hostInfo c = Run (throw not_in_a_lobby) c [])
  ∧ (is_Some (lobbyChannel c) → truthy (sessionToken c) = false →
     setHostInfo_start hostInfo c = Run (throw not_connected) c [])
  ∧ (lobbyChannel c = None ∨ truthy (sessionToken c) = false
     ∨ currentLobby c = None →
     leaveLobby_start c = Run (throw not_in_a_lobby) c []).
Proof.
  intros why failed. subst why failed.
  destruct c as [s app lch tok dbg cur]. cbn [sessionToken lobbyChannel currentLobby].
  split_and!.
  1-15: by destruct dbg; run_methods.
  - intros Htok. run_methods. by rewrite Htok.
  - intros ->. by run_methods.
  - intros [ch ->] Htok. run_methods. by rewrite Htok.
  - intros Hor. run_methods.
    destruct lch as [ch|]; [|done].
    destruct (truthy tok); [|done].
    destruct cur as [l|]; [|done].
    by destruct Hor as [?|[?|?]].
Qed.

Lemma failures_reject_and_emit_witness :
  let e := mk_error LobbyError "Failed to set host info: lobby is closed" in
  let r := setHostInfo_resume a_host
             (ack_error {| reason := Some "lobby is closed" |}) connected_client in
  (outcome r = throw e ∧ emitted (trace r) = [error e])
  ∧ joinLobby_start (lobby_of 5 open []) fresh_client
    = Run (throw not_connected) fresh_client [].
Proof.
  destruct (failures_reject_and_emit connected_client
              {| reason := Some "lobby is closed" |}
              (lobby_of 5 open []) a_host 5)
    as (_ & _ & _ & (Ho & He & _) & _).
  destruct (failures_reject_and_emit fresh_client
              {| reason := None |} (lobby_of 5 open []) a_host 5)
    as (_ & _ & _ & _ & _ & Hj & _).
  split; [by split|]. by apply Hj.
Defined.

(** C4 as stated fails: [joinLobby] on a client without session token
    rejects with a [MatchmakeError] and emits no [error] event. *)
Lemma contract_violation_emits_no_error_event :
  ∃ e, outcome (joinLobby (lobby_of 5 open []) (ack_ok (a_lobby_response (lobby_of 5 open [])))
                  fresh_client) = throw e
       ∧ instanceof_MatchmakeError e = true
       ∧ emitted (trace (joinLobby (lobby_of 5 open [])
                           (ack_ok (a_lobby_response (lobby_of 5 open [])))
                           fresh_client)) = [].
Proof. eexists. split; [reflexivity|]. by split. Qed.

(** C9 (amended). While the app channel has never been assigned,
    [findLobby] rejects with the engine's [TypeError] for reading [push] of
    [undefined], which is not a [MatchmakeError]; it makes no call on the
    transport and leaves the client unchanged; the [TypeError] is thrown
    inside the [try] block, so an [error] event carrying it is emitted. *)
Theorem findLobby_without_app_channel
    (c : MatchmakeClient) (configId : Z) (a : ack LobbyResponse.t) :
  appChannel c = None →
  let r := findLobby configId a c in
  outcome r = throw (TypeError_of_undefined "push")
  ∧ instanceof_MatchmakeError (TypeError_of_undefined "push") = false
  ∧ emitted (trace r) = [error (TypeError_of_undefined "push")]
  ∧ transport_calls (trace r) = []
  ∧ final r = c.
Proof.
  intros Happ. destruct c as [s app lch tok dbg cur]. cbn in Happ. subst app.
  by destruct dbg; run_methods.
Qed.

Lemma findLobby_without_app_channel_witness :
  let r := findLobby 1 (ack_ok (a_lobby_response (lobby_of 5 open []))) fresh_client in
  outcome r = throw (TypeError_of_undefined "push")
  ∧ instanceof_MatchmakeError (TypeError_of_undefined "push") = false
  ∧ emitted (trace r) = [error (TypeError_of_undefined "push")]
  ∧ transport_calls (trace r) = []
  ∧ final r = fresh_client.
Proof.
  exact (findLobby_without_app_channel fresh_client 1
           (ack_ok (a_lobby_response (lobby_of 5 open []))) eq_refl).
Defined.

(** C9 as stated fails: [findLobby] on a freshly constructed client does
    emit an [error] event. *)
Lemma findLobby_before_connect_emits_error :
  emitted (trace (findLobby 1 (ack_ok (a_lobby_response (lobby_of 5 open [])))
                    fresh_client))
  = [error (TypeError_of_undefined "push")].
Proof. reflexivity. Qed.

(** C7 (amended). When the app channel exists, the session token is
    truthy and both acknowledgements are ["ok"], [findAndJoinLobby] emits
    [lobbyFound] with the lobby of the find acknowledgement and then
    [lobbyJoined] with the lobby of the join acknowledgement; the latter is
    also what is returned and cached. The join goes to the channel
    [lobby:<id of the found lobby>]. The client does not compare the two
    lobbies: their identifiers agree when the server's do. *)
Theorem findAndJoinLobby_events
    (c : MatchmakeClient) (app : Channel) (configId : Z)
    (found joined : LobbyResponse.t) :
  appChannel c = Some app →
  truthy (sessionToken c) = true →
  let r := findAndJoinLobby configId (ack_ok found) (ack_ok joined) c in
  let ch := {| topic := "lobby:" +:+ pretty (Lobby.id (LobbyResponse.lobby found));
               chan_params := [("session_token", sessionToken c)] |} in
  outcome r = normal (LobbyResponse.lobby joined)
  ∧ emitted (trace r)
    = [lobbyFound (LobbyResponse.lobby found);
       lobbyJoined (LobbyResponse.lobby joined)]
  ∧ transport_calls (trace r)
    = [channel_push app (find_lobby configId); socket_channel ch;
       channel_on ch "lobby_update"; channel_join ch]
  ∧ currentLobby (final r) = Some (LobbyResponse.lobby joined)
  ∧ lobbyChannel (final r) = Some ch.
Proof.
  intros Happ Htok. destruct c as [s app' lch tok dbg cur].
  cbn in Happ, Htok. subst app'.
  destruct dbg; run_methods; rewrite Htok; by cbn -[pretty String.append truthy].
Qed.

Lemma findAndJoinLobby_events_witness :
  let r := findAndJoinLobby 7 (ack_ok (a_lobby_response (lobby_of 12 open [])))
             (ack_ok (a_lobby_response (lobby_of 12 open [alice])))
             connected_client in
  outcome r = normal (lobby_of 12 open [alice])
  ∧ emitted (trace r)
    = [lobbyFound (lobby_of 12 open []); lobbyJoined (lobby_of 12 open [alice])].
Proof.
  destruct (findAndJoinLobby_events connected_client
              {| topic := "app:auth";
                 chan_params := [("player_slug", Some "player123");
                                 ("ip_address", Some "127.0.0.1")] |}
              7 (a_lobby_response (lobby_of 12 open []))
              (a_lobby_response (lobby_of 12 open [alice]))
              eq_refl eq_refl) as (Ho & He & _).
  by split.
Defined.

(** C7 as stated fails: the server may acknowledge the join with another
    lobby than the one it found; both runs are successful and the two
    events carry different identifiers. *)
Lemma findAndJoinLobby_identifiers_may_differ :
  let r := findAndJoinLobby 7 (ack_ok (a_lobby_response (lobby_of 12 open [])))
             (ack_ok (a_lobby_response (lobby_of 13 open [alice])))
             connected_client in
  outcome r = normal (lobby_of 13 open [alice])
  ∧ emitted (trace r)
    = [lobbyFound (lobby_of 12 open []); lobbyJoined (lobby_of 13 open [alice])]
  ∧ Lobby.id (lobby_of 12 open []) ≠ Lobby.id (lobby_of 13 open [alice]).
Proof. split_and!; [reflexivity..|discriminate]. Qed.

(** ** The debug flag does not interfere *)

Lemma quiet_app os1 os2 : quiet (os1 ++ os2) = quiet os1 ++ quiet os2.
Proof. apply filter_app. Qed.

Lemma quiet_did_app tr1 tr2 :
  quiet (did <$> tr1 ++ tr2) = quiet (did <$> tr1) ++ quiet (did <$> tr2).
Proof. by rewrite fmap_app, quiet_app. Qed.

Lemma mute_fields c1 c2 :
  mute c1 = mute c2 ↔
    socket c1 = socket c2 ∧ appChannel c1 = appChannel c2
    ∧ lobbyChannel c1 = lobbyChannel c2 ∧ sessionToken c1 = sessionToken c2
    ∧ currentLobby c1 = currentLobby c2.
Proof.
  destruct c1, c2. unfold mute, with_debugEnabled. cbn. split.
  - by intros [= -> -> -> -> ->].
  - by intros (-> & -> & -> & -> & ->).
Qed.

Section debug_blind.
Context {A B : Type}.

Lemma blind_ret (a : A) : debug_blind (ret a) (ret a).
Proof. by intros c1 c2 H. Qed.

Lemma blind_raise (e : js_error) : debug_blind (@raise A e) (raise e).
Proof. by intros c1 c2 H. Qed.

Lemma blind_bind (m1 m2 : M A) (k1 k2 : A → M B) :
  debug_blind m1 m2 →
  (∀ a, debug_blind (k1 a) (k2 a)) →
  debug_blind (bind m1 k1) (bind m2 k2).
Proof.
  intros Hm Hk c1 c2 Hc. unfold bind.
  destruct (Hm c1 c2 Hc) as (Ho & Hf & Ht).
  destruct (m1 c1) as [o1 f1 t1], (m2 c2) as [o2 f2 t2].
  cbn [outcome final trace] in Ho, Hf, Ht. subst o2.
  destruct o1 as [a|e]; [|by split_and!].
  destruct (Hk a f1 f2 Hf) as (Ho' & Hf' & Ht').
  destruct (k1 a f1) as [o1' f1' t1'], (k2 a f2) as [o2' f2' t2'].
  cbn [outcome final trace] in *. split_and!; cbn [outcome final trace]; [done..|].
  by rewrite !quiet_did_app, Ht, Ht'.
Qed.

Lemma blind_this (k1 k2 : MatchmakeClient → M B) :
  (∀ c1 c2, mute c1 = mute c2 → debug_blind (k1 c1) (k2 c2)) →
  debug_blind (bind this k1) (bind this k2).
Proof.
  intros Hk c1 c2 Hc. unfold bind, this.
  destruct (Hk c1 c2 Hc c1 c2 Hc) as (Ho & Hf & Ht).
  destruct (k1 c1 c1) as [o1 f1 t1], (k2 c2 c2) as [o2 f2 t2].
  by split_and!.
Qed.

Lemma blind_try_catch (m1 m2 : M A) (h1 h2 : js_error → M A) :
  debug_blind m1 m2 →
  (∀ e, debug_blind (h1 e) (h2 e)) →
  debug_blind (try_catch m1 h1) (try_catch m2 h2).
Proof.
  intros Hm Hh c1 c2 Hc. unfold try_catch.
  destruct (Hm c1 c2 Hc) as (Ho & Hf & Ht).
  destruct (m1 c1) as [o1 f1 t1], (m2 c2) as [o2 f2 t2].
  cbn [outcome final trace] in Ho, Hf, Ht. subst o2.
  destruct o1 as [a|e]; [by split_and!|].
  destruct (Hh e f1 f2 Hf) as (Ho' & Hf' & Ht').
  destruct (h1 e f1) as [o1' f1' t1'], (h2 e f2) as [o2' f2' t2'].
  cbn [outcome final trace] in *. split_and!; cbn [outcome final trace]; [done..|].
  by rewrite !quiet_did_app, Ht, Ht'.
Qed.
End debug_blind.

Lemma blind_perform (e1 e2 : effect) :
  quiet [did e1] = quiet [did e2] →
  debug_blind (perform e1) (perform e2).
Proof. intros He c1 c2 Hc. by split_and!. Qed.

Lemma blind_assign (f : MatchmakeClient → MatchmakeClient) :
  (∀ c1 c2, mute c1 = mute c2 → mute (f c1) = mute (f c2)) →
  debug_blind (assign f) (assign f).
Proof. intros Hf c1 c2 Hc. split_and!; [done| |done]. by apply Hf. Qed.

Lemma blind_debugLog args1 args2 :
  debug_blind (debugLog args1) (debugLog args2).
Proof.
  intros c1 c2 Hc. rewrite !debugLog_run.
  split_and!; [done..|]. cbn [trace].
  by destruct (debugEnabled c1), (debugEnabled c2).
Qed.

Lemma blind_setDebug b1 b2 : debug_blind (setDebug b1) (setDebug b2).
Proof.
  intros c1 c2 Hc. split_and!; [done| |done]. cbn.
  apply mute_fields. apply mute_fields in Hc. by destruct c1, c2.
Qed.

Lemma blind_forEach {A} (f : A → M unit) (xs : list A) :
  (∀ x, debug_blind (f x) (f x)) →
  debug_blind (forEach f xs) (forEach f xs).
Proof.
  intros Hf. induction xs as [|x xs IH]; cbn [forEach].
  - apply blind_ret.
  - apply blind_bind; [apply Hf|]. by intros _.
Qed.

Lemma mute_with (f : MatchmakeClient → MatchmakeClient) c1 c2 :
  (∀ c, socket (f c) = socket (f (mute c))
        ∧ appChannel (f c) = appChannel (f (mute c))
        ∧ lobbyChannel (f c) = lobbyChannel (f (mute c))
        ∧ sessionToken (f c) = sessionToken (f (mute c))
        ∧ currentLobby (f c) = currentLobby (f (mute c))) →
  mute c1 = mute c2 → mute (f c1) = mute (f c2).
Proof.
  intros Hf Hc. apply mute_fields.
  destruct (Hf c1) as (-> & -> & -> & -> & ->).
  destruct (Hf c2) as (-> & -> & -> & -> & ->).
  by rewrite Hc.
Qed.

(** One step of the proof that a method body is blind to the debug flag:
    follow the structure of the body; at [this], the two clients have the
    same fields except for the flag. *)
Ltac blind_step :=
  lazymatch goal with
  | |- debug_blind (debugLog _) (debugLog _) => apply blind_debugLog
  | |- debug_blind (bind this _) (bind this _) =>
      let c1 := fresh "c" in
      let c2 := fresh "c" in
      let H := fresh "H" in
      apply blind_this; intros c1 c2 H;
      apply mute_fields in H; destruct c1, c2;
      cbn [socket appChannel lobbyChannel sessionToken currentLobby] in H;
      destruct H as (-> & -> & -> & -> & ->);
      cbn [socket appChannel lobbyChannel sessionToken currentLobby]
  | |- debug_blind (bind _ _) (bind _ _) => apply blind_bind; [|intros ?]
  | |- debug_blind (try_catch _ _) (try_catch _ _) =>
      apply blind_try_catch; [|intros ?]
  | |- debug_blind (forEach _ _) (forEach _ _) =>
      apply blind_forEach; intros ?
  | |- debug_blind (ret _) (ret _) => apply blind_ret
  | |- debug_blind (raise _) (raise _) => apply blind_raise
  | |- debug_blind (perform _) (perform _) => by apply blind_perform
  | |- debug_blind (assign _) (assign _) =>
      apply blind_assign; intros ? ?; apply mute_with; by intros []
  | |- debug_blind (when ?b _) (when ?b _) => destruct b; cbn [when]
  | |- debug_blind (if ?b then _ else _) _ => destruct b
  | |- debug_blind (match ?x with _ => _ end) _ => destruct x
  end.

Ltac blind :=
  unfold this_appChannel, this_lobbyChannel, this_currentLobby,
    emit_and_rethrow, this_emit, call;
  repeat blind_step.

Lemma blind_onLobbyUpdate lobby :
  debug_blind (onLobbyUpdate lobby) (onLobbyUpdate lobby).
Proof. unfold onLobbyUpdate. blind. Qed.

Lemma blind_onSocketError err :
  debug_blind (onSocketError err) (onSocketError err).
Proof. unfold onSocketError. blind. Qed.

Lemma blind_onSocketClose : debug_blind onSocketClose onSocketClose.
Proof. unfold onSocketClose. blind. Qed.

Lemma blind_getCurrentLobby : debug_blind getCurrentLobby getCurrentLobby.
Proof. unfold getCurrentLobby. blind. Qed.

Lemma blind_disconnect : debug_blind disconnect disconnect.
Proof. unfold disconnect. blind. Qed.

Lemma blind_connect_start options :
  debug_blind (connect_start options) (connect_start options).
Proof. unfold connect_start. blind. Qed.

Lemma blind_connect_resume a :
  debug_blind (connect_resume a) (connect_resume a).
Proof. unfold connect_resume. blind. Qed.

Lemma blind_findLobby_start configId :
  debug_blind (findLobby_start configId) (findLobby_start configId).
Proof. unfold findLobby_start. blind. Qed.

Lemma blind_findLobby_resume a :
  debug_blind (findLobby_resume a) (findLobby_resume a).
Proof. unfold findLobby_resume. blind. Qed.

Lemma blind_joinLobby_start lobby :
  debug_blind (joinLobby_start lobby) (joinLobby_start lobby).
Proof. unfold joinLobby_start. blind. Qed.

Lemma blind_joinLobby_resume a :
  debug_blind (joinLobby_resume a) (joinLobby_resume a).
Proof. unfold joinLobby_resume. blind. Qed.

Lemma blind_setHostInfo_start hostInfo :
  debug_blind (setHostInfo_start hostInfo) (setHostInfo_start hostInfo).
Proof. unfold setHostInfo_start. blind. Qed.

Lemma blind_setHostInfo_resume hostInfo a :
  debug_blind (setHostInfo_resume hostInfo a) (setHostInfo_resume hostInfo a).
Proof. unfold setHostInfo_resume. blind. Qed.

Lemma blind_leaveLobby_start : debug_blind leaveLobby_start leaveLobby_start.
Proof. unfold leaveLobby_start. blind. Qed.

Lemma blind_leaveLobby_resume lobbyId a :
  debug_blind (leaveLobby_resume lobbyId a) (leaveLobby_resume lobbyId a).
Proof. unfold leaveLobby_resume. blind. Qed.

(** The same for the four ways a run is turned into outputs. *)
Section wrappers.
Context {A : Type} (r1 r2 : run A) (ws : list continuation).
Hypothesis Hr : agree r1 r2.

Lemma settle_agree (inj : A → value) :
  same_but_debug (settle inj r1 ws).1 (settle inj r2 ws).1
  ∧ quiet (settle inj r1 ws).2 = quiet (settle inj r2 ws).2.
Proof.
  destruct Hr as (Ho & Hf & Ht). unfold settle. cbn [fst snd].
  split; [by split|]. by rewrite !quiet_app, Ht, Ho.
Qed.

Lemma await_agree (p : A → continuation) :
  same_but_debug (await p r1 ws).1 (await p r2 ws).1
  ∧ quiet (await p r1 ws).2 = quiet (await p r2 ws).2.
Proof.
  destruct Hr as (Ho & Hf & Ht). unfold await. rewrite <- Ho.
  destruct (outcome r1); cbn [fst snd]; (split; [by split|]).
  - done.
  - by rewrite !quiet_app, Ht.
Qed.

Lemma sync_agree (inj : A → value) :
  same_but_debug (sync inj r1 ws).1 (sync inj r2 ws).1
  ∧ quiet (sync inj r1 ws).2 = quiet (sync inj r2 ws).2.
Proof.
  destruct Hr as (Ho & Hf & Ht). unfold sync. cbn [fst snd].
  split; [by split|]. by rewrite !quiet_app, Ht, Ho.
Qed.
End wrappers.

Lemma handler_agree (r1 r2 : run unit) ws :
  agree r1 r2 →
  same_but_debug (handler r1 ws).1 (handler r2 ws).1
  ∧ quiet (handler r1 ws).2 = quiet (handler r2 ws).2.
Proof. intros (Ho & Hf & Ht). unfold handler. cbn [fst snd]. by split. Qed.

Lemma step_blind (i1 i2 : input) (s1 s2 : system) :
  same_input i1 i2 →
  same_but_debug s1 s2 →
  same_but_debug (step i1 s1).1 (step i2 s2).1
  ∧ quiet (step i1 s1).2 = quiet (step i2 s2).2.
Proof.
  intros Hi [Hc Hw].
  destruct s1 as [c1 ws1], s2 as [c2 ws2]. cbn [client waiting] in Hc, Hw.
  subst ws2.
  destruct Hi as [i|b1 b2].
  - destruct i as [m|n r| | |]; unfold step; cbn [client waiting].
    + destruct m.
      * apply sync_agree. by apply blind_setDebug.
      * apply await_agree. by apply blind_connect_start.
      * apply await_agree. by apply blind_findLobby_start.
      * apply await_agree. by apply blind_joinLobby_start.
      * apply await_agree. by apply blind_findLobby_start.
      * apply await_agree. by apply blind_setHostInfo_start.
      * apply await_agree. by apply blind_leaveLobby_start.
      * apply sync_agree. by apply blind_disconnect.
      * apply sync_agree. by apply blind_getCurrentLobby.
    + destruct (ws1 !! n) as [[|[]| | |]|], r; try by split.
      * apply settle_agree. by apply blind_connect_resume.
      * apply await_agree.
        apply blind_bind;
          [apply blind_findLobby_resume
          |intros l; apply blind_joinLobby_start
          |done].
      * apply settle_agree. by apply blind_findLobby_resume.
      * apply settle_agree. by apply blind_joinLobby_resume.
      * apply settle_agree. by apply blind_setHostInfo_resume.
      * apply settle_agree. by apply blind_leaveLobby_resume.
    + apply handler_agree. by apply blind_onLobbyUpdate.
    + apply handler_agree. by apply blind_onSocketError.
    + apply handler_agree. by apply blind_onSocketClose.
  - unfold step; cbn [client waiting].
    apply sync_agree. by apply blind_setDebug.
Qed.

Lemma steps_blind (ins1 ins2 : list input) :
  Forall2 same_input ins1 ins2 →
  ∀ s1 s2, same_but_debug s1 s2 →
  same_but_debug (steps ins1 s1).1 (steps ins2 s2).1
  ∧ quiet (steps ins1 s1).2 = quiet (steps ins2 s2).2.
Proof.
  induction 1 as [|i1 i2 ins1 ins2 Hi _ IH]; intros s1 s2 Hs; [done|].
  cbn [steps].
  destruct (step_blind i1 i2 s1 s2 Hi Hs) as [Hs1 Ho1].
  destruct (step i1 s1) as [s1' o1], (step i2 s2) as [s2' o2].
  cbn [fst snd] in Hs1, Ho1.
  destruct (IH s1' s2' Hs1) as [Hs2 Ho2].
  destruct (steps ins1 s1') as [s1'' o1'], (steps ins2 s2') as [s2'' o2'].
  cbn [fst snd] in *. split; [done|]. by rewrite !quiet_app, Ho1, Ho2.
Qed.

Lemma boot_same_but_debug rt endpoint tok d1 d2 :
  same_but_debug
    (boot rt endpoint {| ClientOptions.apiToken := tok; ClientOptions.debug := d1 |})
    (boot rt endpoint {| ClientOptions.apiToken := tok; ClientOptions.debug := d2 |}).
Proof. by split. Qed.

(** C10. Take two clients constructed alike except for the [debug] option
    and feed them the same calls, acknowledgements, pushes and socket
    events, except that the arguments of [setDebug] may differ. Then they
    produce the same outputs once [console.log] is left out (same events
    with the same payloads, same calls on the transport, same returned
    values, same resolutions and rejections), and end with the same
    outstanding requests and the same client up to the debug flag. *)
Theorem debug_flag_only_affects_console
    (rt : runtime) (endpoint : string) (tok : option string)
    (d1 d2 : option bool) (ins1 ins2 : list input) :
  Forall2 same_input ins1 ins2 →
  let run1 := steps ins1 (boot rt endpoint
                {| ClientOptions.apiToken := tok; ClientOptions.debug := d1 |}) in
  let run2 := steps ins2 (boot rt endpoint
                {| ClientOptions.apiToken := tok; ClientOptions.debug := d2 |}) in
  quiet run1.2 = quiet run2.2
  ∧ mute (client run1.1) = mute (client run2.1)
  ∧ waiting run1.1 = waiting run2.1.
Proof.
  intros Hins run1 run2.
  destruct (steps_blind ins1 ins2 Hins _ _
              (boot_same_but_debug rt endpoint tok d1 d2)) as [[Hc Hw] Ho].
  by split_and!.
Qed.

(** ** Invariants of the client *)

Section maintains.
Context (I : MatchmakeClient → Prop) (Q : effect → Prop).

Lemma maintains_ret {A} (a : A) : maintains I Q (ret a).
Proof. by intros c Hc. Qed.

Lemma maintains_raise {A} (e : js_error) : maintains I Q (@raise A e).
Proof. by intros c Hc. Qed.

Lemma maintains_perform (e : effect) : Q e → maintains I Q (perform e).
Proof. intros He c Hc. split; [done|]. by apply Forall_singleton. Qed.

Lemma maintains_assign (f : MatchmakeClient → MatchmakeClient) :
  (∀ c, I c → I (f c)) → maintains I Q (assign f).
Proof. intros Hf c Hc. split; [by apply Hf|done]. Qed.

Lemma maintains_bind {A B} (m : M A) (k : A → M B) :
  maintains I Q m → (∀ a, maintains I Q (k a)) → maintains I Q (bind m k).
Proof.
  intros Hm Hk c Hc. unfold bind.
  destruct (Hm c Hc) as [Hf Ht]. destruct (m c) as [[a|e] f t]; [|done].
  cbn [final trace] in Hf, Ht.
  destruct (Hk a f Hf) as [Hf' Ht']. destruct (k a f) as [o' f' t'].
  cbn [final trace] in *. split; [done|]. by apply Forall_app.
Qed.

Lemma maintains_bind_raise {A B} (e : js_error) (k : A → M B) :
  maintains I Q (bind (raise e) k).
Proof. by intros c Hc. Qed.

Lemma maintains_bind_assoc {A B C} (m : M A) (k1 : A → M B) (k2 : B → M C) :
  maintains I Q (bind m (λ a, bind (k1 a) k2)) →
  maintains I Q (bind (bind m k1) k2).
Proof. intros H c Hc. rewrite bind_assoc. by apply H. Qed.

Lemma maintains_this {B} (k : MatchmakeClient → M B) :
  (∀ c, I c → maintains I Q (k c)) → maintains I Q (bind this k).
Proof.
  intros Hk c Hc. unfold bind, this.
  destruct (Hk c Hc c Hc) as [Hf Ht]. by destruct (k c c).
Qed.

Lemma maintains_try_catch {A} (m : M A) (h : js_error → M A) :
  maintains I Q m → (∀ e, maintains I Q (h e)) →
  maintains I Q (try_catch m h).
Proof.
  intros Hm Hh c Hc. unfold try_catch.
  destruct (Hm c Hc) as [Hf Ht]. destruct (m c) as [[a|e] f t]; [done|].
  cbn [final trace] in Hf, Ht.
  destruct (Hh e f Hf) as [Hf' Ht']. destruct (h e f) as [o' f' t'].
  cbn [final trace] in *. split; [done|]. by apply Forall_app.
Qed.

Lemma maintains_forEach {A} (f : A → M unit) (xs : list A) :
  (∀ x, maintains I Q (f x)) → maintains I Q (forEach f xs).
Proof.
  intros Hf. induction xs as [|x xs IH]; cbn [forEach].
  - apply maintains_ret.
  - apply maintains_bind; [apply Hf|]. by intros _.
Qed.

Lemma maintains_debugLog args :
  (∀ l, Q (console_log l)) → maintains I Q (debugLog args).
Proof.
  intros HQ c Hc. rewrite debugLog_run. split; [done|]. cbn [trace].
  destruct (debugEnabled c); [|done]. by apply Forall_singleton.
Qed.

(** From a method body to the outputs of a step. *)
Section outputs.
Context {A : Type} (m : M A) (c : MatchmakeClient)
  (ws : list continuation).
Hypothesis Hm : maintains I Q m.
Hypothesis Hc : I c.

Lemma did_maintains : Forall (on_effects Q) (did <$> trace (m c)).
Proof. apply Forall_fmap. by destruct (Hm c Hc). Qed.

Lemma settle_maintains (inj : A → value) :
  I (client (settle inj (m c) ws).1)
  ∧ Forall (on_effects Q) (settle inj (m c) ws).2.
Proof.
  unfold settle. cbn [fst snd client].
  split; [by destruct (Hm c Hc)|].
  apply Forall_app. split; [apply did_maintains|].
  apply Forall_singleton. by destruct (outcome (m c)).
Qed.

Lemma await_maintains (p : A → continuation) :
  I (client (await p (m c) ws).1)
  ∧ Forall (on_effects Q) (await p (m c) ws).2.
Proof.
  unfold await. pose proof did_maintains as Hd.
  destruct (Hm c Hc) as [Hf _].
  destruct (outcome (m c)); cbn [fst snd client]; (split; [done|]).
  - done.
  - apply Forall_app. split; [done|]. by apply Forall_singleton.
Qed.

Lemma sync_maintains (inj : A → value) :
  I (client (sync inj (m c) ws).1)
  ∧ Forall (on_effects Q) (sync inj (m c) ws).2.
Proof.
  unfold sync. cbn [fst snd client].
  split; [by destruct (Hm c Hc)|].
  apply Forall_app. split; [apply did_maintains|].
  apply Forall_singleton. by destruct (outcome (m c)).
Qed.
End outputs.

Lemma handler_maintains (m : M unit) c ws :
  maintains I Q m → I c →
  I (client (handler (m c) ws).1)
  ∧ Forall (on_effects Q) (handler (m c) ws).2.
Proof.
  intros Hm Hc. unfold handler. cbn [fst snd client].
  split; [by destruct (Hm c Hc)|]. by apply did_maintains.
Qed.
End maintains.

(** One step of the proof that a method body maintains an invariant. The
    invariant is read off at every [this]. *)
Ltac maintain_step :=
  lazymatch goal with
  | |- maintains _ _ (debugLog _) => by apply maintains_debugLog
  | |- maintains _ _ (bind this _) =>
      let c := fresh "c" in
      let H := fresh "H" in
      apply maintains_this; intros c H; destruct c;
      cbn [socket appChannel lobbyChannel sessionToken currentLobby] in *;
      destruct_and?; simplify_eq;
      cbn [truthy negb orb andb]
  | |- maintains _ _ (bind (raise _) _) => apply maintains_bind_raise
  | |- maintains _ _ (bind (match ?x with _ => _ end) _) => destruct x
  | |- maintains _ _ (bind (bind _ _) _) => apply maintains_bind_assoc
  | |- maintains _ _ (bind _ _) => apply maintains_bind; [|intros ?]
  | |- maintains _ _ (try_catch _ _) => apply maintains_try_catch; [|intros ?]
  | |- maintains _ _ (forEach _ _) => apply maintains_forEach; intros ?
  | |- maintains _ _ (ret _) => apply maintains_ret
  | |- maintains _ _ (raise _) => apply maintains_raise
  | |- maintains _ _ (perform _) => by apply maintains_perform
  | |- maintains _ _ (assign _) =>
      apply maintains_assign; intros [] ?; cbn in *; by destruct_and?
  | |- maintains _ _ (when ?b _) => destruct b; cbn [when]
  | |- maintains _ _ (if ?b then _ else _) => destruct b
  | |- maintains _ _ (match ?x with _ => _ end) => destruct x
  end.

Ltac maintain :=
  unfold onLobbyUpdate, onSocketError, onSocketClose, getCurrentLobby,
    setDebug, disconnect, connect_start, connect_resume, findLobby_start,
    findLobby_resume, joinLobby_start, joinLobby_resume, setHostInfo_start,
    setHostInfo_resume, leaveLobby_start, leaveLobby_resume,
    this_appChannel, this_lobbyChannel, this_currentLobby,
    emit_and_rethrow, this_emit, call;
  solve [repeat maintain_step].

(** Splits a step into its cases and reduces each to a method body. *)
Ltac step_cases I Q :=
  unfold step; cbn [client waiting];
  repeat lazymatch goal with
    | |- context [match ?x with _ => _ end] => destruct x
    end;
  first
    [ by split
    | apply (settle_maintains I Q); [maintain|done]
    | apply (await_maintains I Q); [maintain|done]
    | apply (sync_maintains I Q); [maintain|done]
    | apply (handler_maintains I Q); [maintain|done]
    | congruence ].

(** Every step keeps the socket the client was constructed with, and every
    [socket.connect()] is made on it. *)
Lemma step_socket (sock : PhoenixSocket) (i : input) (s : system) :
  socket (client s) = sock →
  (λ c, socket c = sock) (client (step i s).1)
  ∧ Forall (on_effects (connects_with sock)) (step i s).2.
Proof.
  intros Hs. destruct s as [c ws]. cbn [client] in Hs.
  step_cases (λ c, socket c = sock) (connects_with sock).
Qed.

Lemma steps_socket (sock : PhoenixSocket) (ins : list input) :
  ∀ s, socket (client s) = sock →
  socket (client (steps ins s).1) = sock
  ∧ Forall (on_effects (connects_with sock)) (steps ins s).2.
Proof.
  induction ins as [|i ins IH]; intros s Hs; [done|].
  cbn [steps].
  destruct (step_socket sock i s Hs) as [Hs1 Ho1].
  destruct (step i s) as [s1 o1]. cbn [fst snd] in Hs1, Ho1.
  destruct (IH s1 Hs1) as [Hs2 Ho2].
  destruct (steps ins s1) as [s2 o2]. cbn [fst snd] in *.
  split; [done|]. by apply Forall_app.
Qed.

(** Only the ["ok"] acknowledgement of a [connect] changes the session
    token. *)
Lemma step_sessionToken (i : input) (s : system) :
  not_connect_ok i (waiting s) →
  sessionToken (client (step i s).1) = sessionToken (client s).
Proof.
  intros Hi. destruct s as [c ws]. cbn [client waiting] in *.
  set (t := sessionToken c).
  cut ((λ c, sessionToken c = t) (client (step i {| client := c; waiting := ws |}).1)
       ∧ Forall (on_effects (λ _, True)) (step i {| client := c; waiting := ws |}).2).
  { by intros [? _]. }
  assert (Ht : sessionToken c = t) by done. clearbody t.
  destruct i as [m|n [[resp|err]|a|a]| | |]; cbn [not_connect_ok] in Hi.
  all: step_cases (λ c, sessionToken c = t) (λ _ : effect, True).
Qed.

(** As long as no [connect] was acknowledged with ["ok"], there is neither
    a session token nor a lobby channel. *)
Lemma step_not_connected (i : input) (s : system) :
  not_connect_ok i (waiting s) →
  sessionToken (client s) = None ∧ lobbyChannel (client s) = None →
  sessionToken (client (step i s).1) = None
  ∧ lobbyChannel (client (step i s).1) = None.
Proof.
  intros Hi Hs. destruct s as [c ws]. cbn [client waiting] in *.
  cut ((λ c, sessionToken c = None ∧ lobbyChannel c = None)
         (client (step i {| client := c; waiting := ws |}).1)
       ∧ Forall (on_effects (λ _, True)) (step i {| client := c; waiting := ws |}).2).
  { by intros [? _]. }
  destruct i as [m|n [[resp|err]|a|a]| | |]; cbn [not_connect_ok] in Hi.
  all: step_cases (λ c, sessionToken c = None ∧ lobbyChannel c = None)
         (λ _ : effect, True).
Qed.

Lemma steps_not_connected (ins : list input) :
  ∀ s, never_connected ins s →
  sessionToken (client s) = None ∧ lobbyChannel (client s) = None →
  sessionToken (client (steps ins s).1) = None
  ∧ lobbyChannel (client (steps ins s).1) = None.
Proof.
  induction ins as [|i ins IH]; intros s Hn Hs; [done|].
  destruct Hn as [Hi Hn]. cbn [steps].
  pose proof (step_not_connected i s Hi Hs) as Hs1.
  destruct (step i s) as [s1 o1]. cbn [fst] in Hs1, Hn.
  pose proof (IH s1 Hn Hs1) as Hs2.
  by destruct (steps ins s1) as [s2 o2].
Qed.

Lemma debug_flag_only_affects_console_witness :
  let run1 := steps (a_session true)
                (boot node "wss://example.com/socket"
                   {| ClientOptions.apiToken := None;
                      ClientOptions.debug := Some true |}) in
  let run2 := steps (a_session false)
                (boot node "wss://example.com/socket"
                   {| ClientOptions.apiToken := None;
                      ClientOptions.debug := None |}) in
  quiet run1.2 = quiet run2.2
  ∧ mute (client run1.1) = mute (client run2.1)
  ∧ waiting run1.1 = waiting run2.1.
Proof.
  apply (debug_flag_only_affects_console node "wss://example.com/socket" None
           (Some true) None (a_session true) (a_session false)).
  unfold a_session. repeat constructor.
Defined.

(** C8. A client constructed without [apiToken] is built without failure
    and carries the fixed default token: as the header
    [x-authorization: Bearer <token>] under Node, as the connection
    parameter [token] in a browser. The socket is never replaced, so every
    [socket.connect()] the client ever makes uses it. *)
Theorem default_api_token
    (rt : runtime) (ep : string) (options : ClientOptions.t)
    (ins : list input) :
  ClientOptions.apiToken options = None →
  let sock := socket (new_MatchmakeClient rt ep options) in
  let run := steps ins (boot rt ep options) in
  default_apiToken = "of0FnIPtpGEtIfEMliuEawiMkGYoLImS1csN9dHYZA0="
  ∧ sock = match rt with
           | node =>
               {| endpoint := ep;
                  transport_headers :=
                    [("x-authorization", "Bearer " +:+ default_apiToken)];
                  params := [] |}
           | browser =>
               {| endpoint := ep;
                  transport_headers := [];
                  params := [("token", default_apiToken)] |}
           end
  ∧ socket (client run.1) = sock
  ∧ (∀ s, did (transport (socket_connect s)) ∈ run.2 → s = sock).
Proof.
  intros Htok sock run.
  destruct (steps_socket sock ins (boot rt ep options) eq_refl) as [Hs Ho].
  split_and!; [done| |done|].
  - subst sock. unfold new_MatchmakeClient. rewrite Htok. by destruct rt.
  - intros s Hin. rewrite Forall_forall in Ho. exact (Ho _ Hin).
Qed.

Lemma default_api_token_witness :
  socket (client (steps (a_session true)
                    (boot browser "wss://example.com/socket" no_options)).1)
  = {| endpoint := "wss://example.com/socket";
       transport_headers := [];
       params := [("token", "of0FnIPtpGEtIfEMliuEawiMkGYoLImS1csN9dHYZA0=")] |}.
Proof.
  destruct (default_api_token browser "wss://example.com/socket" no_options
              (a_session true) eq_refl) as (_ & Hsock & Hkeep & _).
  etrans; [exact Hkeep|]. exact Hsock.
Defined.

Lemma onLobbyUpdate_caches c lobby :
  currentLobby (final (onLobbyUpdate lobby c)) = Some lobby.
Proof.
  destruct (currentLobby c) as [previous|] eqn:Hcur.
  - destruct (onLobbyUpdate_run c previous lobby Hcur) as (_ & -> & _). done.
  - destruct (onLobbyUpdate_first c lobby Hcur) as (_ & -> & _). done.
Qed.

(** C6 (amended). The session token is set by every successful [connect]
    (to the token of the acknowledgement) and by nothing else: no input
    other than an ["ok"] acknowledgement of [connect] changes it, and in
    particular [disconnect] keeps it. The cached lobby is set by a
    successful [joinLobby], replaced by every [lobby_update] push, and
    cleared (so that [getCurrentLobby] returns null) by a successful
    [leaveLobby] and by [disconnect], which also drops the lobby
    channel. *)
Theorem session_lifecycle (c : MatchmakeClient) :
  (∀ resp,
     sessionToken (final (connect_resume (ack_ok resp) c))
     = Some (ConnectResponse.session_token resp))
  ∧ (∀ i ws,
       not_connect_ok i ws →
       sessionToken (client (step i {| client := c; waiting := ws |}).1)
       = sessionToken c)
  ∧ (sessionToken (final (disconnect c)) = sessionToken c
     ∧ currentLobby (final (disconnect c)) = None
     ∧ lobbyChannel (final (disconnect c)) = None)
  ∧ (∀ resp,
       currentLobby (final (joinLobby_resume (ack_ok resp) c))
       = Some (LobbyResponse.lobby resp))
  ∧ (∀ lobby, currentLobby (final (onLobbyUpdate lobby c)) = Some lobby)
  ∧ (∀ lobbyId,
       is_Some (lobbyChannel c) →
       outcome (leaveLobby_resume lobbyId (ack_ok tt) c) = normal tt
       ∧ currentLobby (final (leaveLobby_resume lobbyId (ack_ok tt) c)) = None
       ∧ lobbyChannel (final (leaveLobby_resume lobbyId (ack_ok tt) c)) = None)
  ∧ outcome (getCurrentLobby c) = normal (currentLobby c).
Proof.
  split_and!.
  - intros resp. destruct c as [s app lch tok [] cur]; by run_methods.
  - intros i ws Hi.
    exact (step_sessionToken i {| client := c; waiting := ws |} Hi).
  - destruct c as [s [app|] [lch|] tok [] cur]; by run_methods.
  - destruct c as [s [app|] [lch|] tok [] cur]; by run_methods.
  - destruct c as [s [app|] [lch|] tok [] cur]; by run_methods.
  - intros resp. destruct c as [s app lch tok [] cur]; by run_methods.
  - apply onLobbyUpdate_caches.
  - intros lobbyId [ch Hch].
    destruct c as [s app lch tok [] cur]; cbn in Hch; subst lch;
      by run_methods.
  - by destruct c.
Qed.

Lemma session_lifecycle_witness :
  sessionToken (client (step (invoke call_disconnect)
                          {| client := connected_client; waiting := [] |}).1)
  = Some "tok"
  ∧ currentLobby
      (final (leaveLobby_resume 12 (ack_ok tt)
                (final (joinLobby (lobby_of 12 open [])
                          (ack_ok (a_lobby_response (lobby_of 12 open [alice])))
                          connected_client))))
    = None.
Proof.
  split.
  - destruct (session_lifecycle connected_client) as (_ & H & _).
    exact (H (invoke call_disconnect) [] I).
  - destruct (session_lifecycle
                (final (joinLobby (lobby_of 12 open [])
                          (ack_ok (a_lobby_response (lobby_of 12 open [alice])))
                          connected_client)))
      as (_ & _ & _ & _ & _ & H & _).
    apply (H 12). by eexists.
Defined.

(** C6 as stated fails: after a successful [connect], [disconnect] leaves
    the session token in place. *)
Lemma disconnect_keeps_session_token :
  sessionToken connected_client = Some "tok"
  ∧ sessionToken (final (disconnect connected_client)) = Some "tok"
  ∧ currentLobby (final (disconnect connected_client)) = None.
Proof. by split_and!. Qed.

(** C3 (amended). Take a client on which no [connect] has been
    acknowledged with ["ok"], whatever else happened to it. It has no
    session token and no lobby channel, and [setHostInfo] and [leaveLobby]
    fail on it before any request is made, whatever the transport would
    have answered: they reject with the lobby-level error "Not in a lobby"
    (not with a connection-level error), the trace is empty (no call on the
    transport, no event, no log) and the client is unchanged. *)
Theorem lobby_operation_without_connect
    (rt : runtime) (ep : string) (options : ClientOptions.t)
    (ins : list input) (hostInfo : HostInfo.t) (a a' : ack unit) :
  never_connected ins (boot rt ep options) →
  let c := client (steps ins (boot rt ep options)).1 in
  sessionToken c = None
  ∧ lobbyChannel c = None
  ∧ setHostInfo_start hostInfo c = Run (throw not_in_a_lobby) c []
  ∧ setHostInfo hostInfo a c = Run (throw not_in_a_lobby) c []
  ∧ leaveLobby_start c = Run (throw not_in_a_lobby) c []
  ∧ leaveLobby a' c = Run (throw not_in_a_lobby) c []
  ∧ instanceof_LobbyError not_in_a_lobby = true
  ∧ instanceof_ConnectionError not_in_a_lobby = false.
Proof.
  intros Hn c.
  destruct (steps_not_connected ins (boot rt ep options) Hn) as [Htok Hch];
    [done|].
  destruct (lobby_guards c hostInfo a a' Hch Htok) as (H1 & H2 & H3 & H4).
  by split_and!.
Qed.

Lemma lobby_operation_without_connect_witness :
  let c := client (steps a_refused_session
                     (boot node "wss://example.com/socket" no_options)).1 in
  setHostInfo a_host (ack_ok tt) c = Run (throw not_in_a_lobby) c []
  ∧ leaveLobby (ack_ok tt) c = Run (throw not_in_a_lobby) c [].
Proof.
  assert (Hn : never_connected a_refused_session
                 (boot node "wss://example.com/socket" no_options)).
  { cbn. tauto. }
  destruct (lobby_operation_without_connect
              node "wss://example.com/socket" no_options a_refused_session
              a_host (ack_ok tt) (ack_ok tt) Hn)
    as (_ & _ & _ & H1 & _ & H2 & _).
  by split.
Defined.

(** * Further properties of the methods *)

(** X1. Whatever the state of the client, a [connect] acknowledged with
    ["ok"] opens the socket the client was built with, creates and joins
    the channel ["app:auth"] with the player's slug and address, stores
    the session token of the acknowledgement, emits [connected] with the
    configurations of the acknowledgement and resolves with them. The app
    channel is replaced; the lobby channel and the cached lobby are left
    alone. *)
Theorem connect_ok_run
    (c : MatchmakeClient) (options : ConnectOptions.t)
    (resp : ConnectResponse.t) :
  let r := connect options (ack_ok resp) c in
  outcome r = normal (ConnectResponse.active_configs resp)
  ∧ emitted (trace r) = [connected (ConnectResponse.active_configs resp)]
  ∧ transport_calls (trace r)
    = [socket_connect (socket c); socket_channel (app_channel options);
       channel_join (app_channel options)]
  ∧ final r
    = with_sessionToken (Some (ConnectResponse.session_token resp))
        (with_appChannel (Some (app_channel options)) c).
Proof.
  destruct c as [s app lch tok [] cur]; by run_methods.
Qed.

(** X2. [findLobby] never changes the client, whatever the
    acknowledgement and whether or not there is an app channel; in
    particular a found lobby is not cached. With an app channel, it pushes
    [find_lobby] with the configuration id; on ["ok"] it emits [lobbyFound]
    with the lobby and resolves with it. *)
Theorem findLobby_frame
    (c : MatchmakeClient) (configId : Z) (a : ack LobbyResponse.t) :
  final (findLobby configId a c) = c
  ∧ (∀ app resp,
       appChannel c = Some app → a = ack_ok resp →
       outcome (findLobby configId a c) = normal (LobbyResponse.lobby resp)
       ∧ emitted (trace (findLobby configId a c))
         = [lobbyFound (LobbyResponse.lobby resp)]
       ∧ transport_calls (trace (findLobby configId a c))
         = [channel_push app (find_lobby configId)]).
Proof.
  split.
  - destruct c as [s [app|] lch tok [] cur], a as [resp|err]; by run_methods.
  - intros app resp Happ ->.
    destruct c as [s app' lch tok [] cur]; cbn in Happ; subst app';
      by run_methods.
Qed.

Lemma findLobby_frame_witness :
  final (findLobby 1 (ack_ok (a_lobby_response (lobby_of 5 open [])))
           connected_client) = connected_client
  ∧ emitted (trace (findLobby 1 (ack_ok (a_lobby_response (lobby_of 5 open [])))
                      connected_client))
    = [lobbyFound (lobby_of 5 open [])].
Proof.
  destruct (findLobby_frame connected_client 1
              (ack_ok (a_lobby_response (lobby_of 5 open []))))
    as [Hf Hok].
  split; [exact Hf|].
  destruct (Hok (app_channel some_options)
              (a_lobby_response (lobby_of 5 open [])) eq_refl eq_refl)
    as (_ & He & _).
  exact He.
Defined.

(** X3. A [joinLobby] with a truthy session token creates the channel
    [lobby:<id>] with that token, subscribes to [lobby_update] and joins;
    it makes no other call, so a lobby channel joined earlier is replaced
    without being left. On ["ok"] the lobby of the acknowledgement (not
    the argument) is cached, emitted with [lobbyJoined] and returned. *)
Theorem joinLobby_ok_run
    (c : MatchmakeClient) (lobby : Lobby.t) (resp : LobbyResponse.t) :
  truthy (sessionToken c) = true →
  let r := joinLobby lobby (ack_ok resp) c in
  let ch := lobby_channel (Lobby.id lobby) (sessionToken c) in
  outcome r = normal (LobbyResponse.lobby resp)
  ∧ emitted (trace r) = [lobbyJoined (LobbyResponse.lobby resp)]
  ∧ transport_calls (trace r)
    = [socket_channel ch; channel_on ch "lobby_update"; channel_join ch]
  ∧ final r
    = with_currentLobby (Some (LobbyResponse.lobby resp))
        (with_lobbyChannel (Some ch) c).
Proof.
  intros Htok. destruct c as [s app lch tok [] cur]; cbn in Htok;
    run_methods; rewrite Htok; by cbn -[pretty String.append truthy].
Qed.

Lemma joinLobby_ok_run_witness :
  let r := joinLobby (lobby_of 12 open [])
             (ack_ok (a_lobby_response (lobby_of 12 open [alice])))
             connected_client in
  emitted (trace r) = [lobbyJoined (lobby_of 12 open [alice])]
  ∧ lobbyChannel (final r) = Some (lobby_channel 12 (Some "tok")).
Proof.
  destruct (joinLobby_ok_run connected_client (lobby_of 12 open [])
              (a_lobby_response (lobby_of 12 open [alice])) eq_refl)
    as (_ & He & _ & Hf).
  split; [exact He|]. by rewrite Hf.
Defined.

(** X4. When the join is refused, the lobby channel is dropped without
    being left, the cached lobby is kept, and the session token is kept. So
    a client that was in a lobby and fails to join another one still
    reports the old lobby but can no longer act on it. *)
Theorem joinLobby_refused
    (c : MatchmakeClient) (err : error_payload) :
  let r := joinLobby_resume (ack_error err) c in
  final r = with_lobbyChannel None c
  ∧ transport_calls (trace r) = []
  ∧ (∀ hostInfo a,
       setHostInfo hostInfo a (final r)
       = Run (throw not_in_a_lobby) (final r) [])
  ∧ outcome (getCurrentLobby (final r)) = normal (currentLobby c).
Proof.
  destruct c as [s app lch tok [] cur]; by run_methods.
Qed.

(** X5. [setHostInfo] never changes the client, on any path: the host
    fields of the cached lobby change only through a [lobby_update] push.
    In a lobby and with a truthy session token it pushes [set_host] with
    the three host fields and the session token on the lobby channel; on
    ["ok"] it emits [hostInfoSet] with the argument and resolves. *)
Theorem setHostInfo_frame
    (c : MatchmakeClient) (hostInfo : HostInfo.t) (a : ack unit) :
  final (setHostInfo hostInfo a c) = c
  ∧ (∀ ch,
       lobbyChannel c = Some ch → truthy (sessionToken c) = true →
       transport_calls (trace (setHostInfo hostInfo a c))
       = [channel_push ch
            (set_host (HostInfo.type hostInfo) (HostInfo.address hostInfo)
                      (HostInfo.port hostInfo) (sessionToken c))]
       ∧ (a = ack_ok tt →
          outcome (setHostInfo hostInfo a c) = normal tt
          ∧ emitted (trace (setHostInfo hostInfo a c)) = [hostInfoSet hostInfo])).
Proof.
  split.
  - destruct c as [s app [ch|] tok [] cur], a as [[]|err]; run_methods;
      try done; by destruct (truthy tok).
  - intros ch Hch Htok.
    destruct c as [s app lch tok [] cur]; cbn in Hch, Htok; subst lch;
      run_methods; rewrite Htok;
      (split; [by destruct a as [[]|err]|]); by intros ->.
Qed.

(** A client in lobby 12 after [connect] and [joinLobby]. *)
Lemma setHostInfo_frame_witness :
  let c := final (joinLobby (lobby_of 12 open [])
                    (ack_ok (a_lobby_response (lobby_of 12 open [alice])))
                    connected_client) in
  final (setHostInfo a_host (ack_ok tt) c) = c
  ∧ transport_calls (trace (setHostInfo a_host (ack_ok tt) c))
    = [channel_push (lobby_channel 12 (Some "tok"))
         (set_host p2p "1.2.3.4" 7000 (Some "tok"))]
  ∧ emitted (trace (setHostInfo a_host (ack_ok tt) c)) = [hostInfoSet a_host].
Proof.
  intros c.
  destruct (setHostInfo_frame c a_host (ack_ok tt)) as [Hf Hin].
  destruct (Hin (lobby_channel 12 (Some "tok")) eq_refl eq_refl)
    as (Ht & Hok).
  destruct (Hok eq_refl) as [_ He].
  by split_and!.
Defined.

(** X6. In a lobby and with a truthy session token, a [leaveLobby]
    acknowledged with ["ok"] pushes [leave] with the id of the cached
    lobby and the session token, then leaves the lobby channel, drops the
    channel, clears the cached lobby, emits [lobbyLeft] with that id and
    resolves. The id is the one captured at the call: if a push replaces
    the cached lobby before the acknowledgement arrives, [lobbyLeft] still
    carries the id of the lobby cached at the call. *)
Theorem leaveLobby_ok_run
    (c : MatchmakeClient) (ch : Channel) (cur : Lobby.t) (update : Lobby.t) :
  lobbyChannel c = Some ch →
  truthy (sessionToken c) = true →
  currentLobby c = Some cur →
  let r := leaveLobby (ack_ok tt) c in
  let r' := (lobbyId <- leaveLobby_start ;;
             onLobbyUpdate update ;;;
             leaveLobby_resume lobbyId (ack_ok tt)) c in
  (outcome r = normal tt
   ∧ emitted (trace r) = [lobbyLeft (Lobby.id cur)]
   ∧ transport_calls (trace r)
     = [channel_push ch (leave (Lobby.id cur) (sessionToken c));
        channel_leave ch]
   ∧ final r = with_currentLobby None (with_lobbyChannel None c))
  ∧ (outcome r' = normal tt
     ∧ emitted (trace r')
       = diff_events cur update ++ [lobbyLeft (Lobby.id cur)]
     ∧ final r' = with_currentLobby None (with_lobbyChannel None c)).
Proof.
  intros Hch Htok Hcur r r'. split.
  - subst r r'. destruct c as [s app lch tok [] cur'];
      cbn in Hch, Htok, Hcur; subst lch cur';
      run_methods; rewrite Htok; by cbn -[pretty String.append truthy].
  - clear r.
    assert (Hstart : ∃ t,
      leaveLobby_start c = Run (normal (Lobby.id cur)) c t
      ∧ emitted t = []).
    { destruct c as [s app lch tok [] cur'];
        cbn in Hch, Htok, Hcur; subst lch cur';
        run_methods; rewrite Htok; cbn -[pretty String.append truthy];
        by eexists. }
    destruct Hstart as (t & Hstart & Het).
    destruct (onLobbyUpdate_run c cur update Hcur) as (Ho & Hf & He & _).
    assert (Hr : ∃ tl,
      r' = Run (normal tt) (with_currentLobby None (with_lobbyChannel None c))
             (t ++ trace (onLobbyUpdate update c) ++ tl)
      ∧ emitted tl = [lobbyLeft (Lobby.id cur)]).
    { subst r'. unfold bind at 1. rewrite Hstart.
      unfold bind at 1.
      destruct (onLobbyUpdate update c) as [o f tu].
      cbn [outcome final trace] in Ho, Hf |- *. subst o f.
      destruct c as [s app lch tok dbg cur'].
      cbn in Hch. subst lch.
      destruct dbg; run_methods; by eexists. }
    destruct Hr as (tl & -> & Htl). cbn [outcome final trace].
    split_and!; [done| |done].
    by rewrite !emitted_app, Het, He, Htl.
Qed.

Lemma leaveLobby_ok_run_witness :
  let c := final (joinLobby (lobby_of 12 open [])
                    (ack_ok (a_lobby_response (lobby_of 12 open [alice])))
                    connected_client) in
  emitted (trace (leaveLobby (ack_ok tt) c)) = [lobbyLeft 12]
  ∧ currentLobby (final (leaveLobby (ack_ok tt) c)) = None.
Proof.
  intros c.
  destruct (leaveLobby_ok_run c (lobby_channel 12 (Some "tok"))
              (lobby_of 12 open [alice]) (lobby_of 13 open [])
              eq_refl eq_refl eq_refl) as [(_ & He & _ & Hf) _].
  split; [exact He|]. by rewrite Hf.
Defined.

(** X7. A refused [leave] changes nothing: the lobby channel is neither
    left nor dropped and the lobby stays cached, so the client is still in
    the lobby. *)
Theorem leaveLobby_refused
    (c : MatchmakeClient) (lobbyId : Z) (err : error_payload) :
  final (leaveLobby_resume lobbyId (ack_error err) c) = c
  ∧ transport_calls (trace (leaveLobby_resume lobbyId (ack_error err) c)) = [].
Proof.
  destruct c as [s app lch tok [] cur]; by run_methods.
Qed.

(** X8. [disconnect] never throws. It leaves the lobby channel if there is
    one, then the app channel if there is one, then disconnects the
    socket; it drops the lobby channel and the cached lobby, keeps the app
    channel, and emits [disconnected]. Disconnecting twice ends in the same
    state as disconnecting once. *)
Theorem disconnect_run (c : MatchmakeClient) :
  let r := disconnect c in
  outcome r = normal tt
  ∧ emitted (trace r) = [disconnected]
  ∧ transport_calls (trace r)
    = match lobbyChannel c with Some ch => [channel_leave ch] | None => [] end
      ++ match appChannel c with Some ch => [channel_leave ch] | None => [] end
      ++ [socket_disconnect (socket c)]
  ∧ final r = with_currentLobby None (with_lobbyChannel None c)
  ∧ final (disconnect (final r)) = final r.
Proof.
  destruct c as [s [app|] [lch|] tok [] cur]; by run_methods.
Qed.

(** X9. After [disconnect], [setHostInfo] and [leaveLobby] are rejected
    with "Not in a lobby" before any request. The session token and the app
    channel survive, so [joinLobby] is not rejected as "Not connected": with
    a truthy token it still creates and joins a lobby channel, and
    [findLobby] still pushes on the app channel that was left. *)
Theorem after_disconnect
    (c : MatchmakeClient) (hostInfo : HostInfo.t) (a : ack unit)
    (lobby : Lobby.t) (configId : Z) :
  let d := final (disconnect c) in
  setHostInfo hostInfo a d = Run (throw not_in_a_lobby) d []
  ∧ leaveLobby a d = Run (throw not_in_a_lobby) d []
  ∧ (truthy (sessionToken c) = true →
     outcome (joinLobby_start lobby d) = normal tt
     ∧ transport_calls (trace (joinLobby_start lobby d))
       = [socket_channel (lobby_channel (Lobby.id lobby) (sessionToken c));
          channel_on (lobby_channel (Lobby.id lobby) (sessionToken c))
            "lobby_update";
          channel_join (lobby_channel (Lobby.id lobby) (sessionToken c))])
  ∧ (∀ app, appChannel c = Some app →
       outcome (findLobby_start configId d) = normal tt
       ∧ transport_calls (trace (findLobby_start configId d))
         = [channel_push app (find_lobby configId)]).
Proof.
  intros d. subst d. split_and!.
  - destruct c as [s [app|] [lch|] tok [] cur]; by run_methods.
  - destruct c as [s [app|] [lch|] tok [] cur]; by run_methods.
  - intros Htok.
    destruct c as [s [app|] [lch|] tok [] cur]; cbn in Htok;
      run_methods; rewrite Htok; by cbn -[pretty String.append truthy].
  - intros app Happ.
    destruct c as [s app' [lch|] tok [] cur]; cbn in Happ; subst app';
      by run_methods.
Qed.

Lemma after_disconnect_witness :
  let d := final (disconnect connected_client) in
  outcome (joinLobby_start (lobby_of 12 open []) d) = normal tt
  ∧ outcome (findLobby_start 1 d) = normal tt.
Proof.
  destruct (after_disconnect connected_client a_host (ack_ok tt)
              (lobby_of 12 open []) 1) as (_ & _ & Hj & Hf).
  destruct (Hj eq_refl) as [Hjo _].
  destruct (Hf (app_channel some_options) eq_refl) as [Hfo _].
  by split.
Defined.

(** X10. The socket handlers only report: [onSocketError] emits
    [socketError] with a [ConnectionError] (not the [error] event) and
    [onSocketClose] emits [socketClosed]; neither calls the transport nor
    changes the client, so after the socket closed the session token, the
    channels and the cached lobby are all still in place. *)
Theorem socket_handlers_frame (c : MatchmakeClient) (err : json) :
  (outcome (onSocketError err c) = normal tt
   ∧ final (onSocketError err c) = c
   ∧ emitted (trace (onSocketError err c))
     = [socketError (mk_error ConnectionError "WebSocket connection error")]
   ∧ transport_calls (trace (onSocketError err c)) = [])
  ∧ (outcome (onSocketClose c) = normal tt
     ∧ final (onSocketClose c) = c
     ∧ emitted (trace (onSocketClose c)) = [socketClosed]
     ∧ transport_calls (trace (onSocketClose c)) = []).
Proof.
  destruct c as [s app lch tok [] cur]; by run_methods.
Qed.

(** * Further invariants of the client in its environment *)

(** As [maintain_step], but the invariant may mention the debug flag and
    may be stated by cases on a field; [debugLog] is followed like any
    other body. *)
Ltac track_step :=
  lazymatch goal with
  | |- maintains _ _ (bind this _) =>
      let c := fresh "c" in
      let H := fresh "H" in
      apply maintains_this; intros c H; destruct c;
      cbn [socket appChannel lobbyChannel sessionToken debugEnabled
           currentLobby has_app_channel] in *;
      destruct_and?; simplify_eq;
      repeat match goal with
        | H' : match ?x with _ => _ end |- _ => destruct x; [idtac|done]
        end;
      cbn [negb orb andb when]
  | |- maintains _ _ (bind (raise _) _) => apply maintains_bind_raise
  | |- maintains _ _ (bind (match ?x with _ => _ end) _) => destruct x
  | |- maintains _ _ (bind (bind _ _) _) => apply maintains_bind_assoc
  | |- maintains _ _ (bind _ _) => apply maintains_bind; [|intros ?]
  | |- maintains _ _ (try_catch _ _) => apply maintains_try_catch; [|intros ?]
  | |- maintains _ _ (forEach _ _) => apply maintains_forEach; intros ?
  | |- maintains _ _ (ret _) => apply maintains_ret
  | |- maintains _ _ (raise _) => apply maintains_raise
  | |- maintains _ _ (perform _) => by apply maintains_perform
  | |- maintains _ _ (assign _) =>
      apply maintains_assign; intros [] ?;
      cbn [socket appChannel lobbyChannel sessionToken debugEnabled
           currentLobby has_app_channel with_appChannel with_lobbyChannel
           with_sessionToken with_debugEnabled with_currentLobby] in *;
      by destruct_and?
  | |- maintains _ _ (when ?b _) => destruct b; cbn [when]
  | |- maintains _ _ (if ?b then _ else _) => destruct b
  | |- maintains _ _ (match ?x with _ => _ end) => destruct x
  end.

Ltac track :=
  unfold onLobbyUpdate, onSocketError, onSocketClose, getCurrentLobby,
    setDebug, disconnect, connect_start, connect_resume, findLobby_start,
    findLobby_resume, joinLobby_start, joinLobby_resume, setHostInfo_start,
    setHostInfo_resume, leaveLobby_start, leaveLobby_resume,
    this_appChannel, this_lobbyChannel, this_currentLobby,
    emit_and_rethrow, this_emit, call, debugLog;
  solve [repeat track_step].

(** Splits a step into its cases; [tac] shows that a method body maintains
    [I] and [Q]. *)
Ltac step_cases_by I Q tac :=
  unfold step; cbn [client waiting];
  repeat lazymatch goal with
    | |- context [match ?x with _ => _ end] => destruct x
    end;
  first
    [ by split
    | apply (settle_maintains I Q); [tac|done]
    | apply (await_maintains I Q); [tac|done]
    | apply (sync_maintains I Q); [tac|done]
    | apply (handler_maintains I Q); [tac|done] ].

Lemma steps_maintain (I : MatchmakeClient → Prop) (Q : effect → Prop)
    (ok : input → Prop) :
  (∀ i s, ok i → I (client s) →
          I (client (step i s).1) ∧ Forall (on_effects Q) (step i s).2) →
  ∀ ins s, Forall ok ins → I (client s) →
  I (client (steps ins s).1) ∧ Forall (on_effects Q) (steps ins s).2.
Proof.
  intros Hstep ins. induction ins as [|i ins IH]; intros s Hok Hs; [done|].
  apply Forall_cons in Hok as [Hi Hok]. cbn [steps].
  destruct (Hstep i s Hi Hs) as [Hs1 Ho1].
  destruct (step i s) as [s1 o1]. cbn [fst snd] in Hs1, Ho1.
  destruct (IH s1 Hok Hs1) as [Hs2 Ho2].
  destruct (steps ins s1) as [s2 o2]. cbn [fst snd] in *.
  split; [done|]. by apply Forall_app.
Qed.

Lemma step_app_channel (i : input) (s : system) :
  has_app_channel (client s) →
  has_app_channel (client (step i s).1)
  ∧ Forall (on_effects (λ _, True)) (step i s).2.
Proof.
  intros Hs. destruct s as [c ws]. cbn [client] in Hs.
  step_cases_by has_app_channel (λ _ : effect, True) track.
Qed.

Lemma step_silent (i : input) (s : system) :
  not_enabling_debug i →
  debugEnabled (client s) = false →
  debugEnabled (client (step i s).1) = false
  ∧ Forall (on_effects silent) (step i s).2.
Proof.
  intros Hi Hs. destruct s as [c ws]. cbn [client] in Hs.
  destruct i as [[[]| | | | | | | |]|n r| | |]; cbn [not_enabling_debug] in Hi.
  all: step_cases_by (λ c, debugEnabled c = false) silent track.
Qed.

Lemma token_joinLobby_start lobby :
  maintains (λ _, True) sends_truthy_token (joinLobby_start lobby).
Proof.
  intros c _. split; [done|].
  destruct c as [s app lch tok [] cur]; run_methods;
    destruct (truthy tok) eqn:E; cbn -[pretty String.append truthy];
    repeat constructor; done.
Qed.

Lemma token_setHostInfo_start hostInfo :
  maintains (λ _, True) sends_truthy_token (setHostInfo_start hostInfo).
Proof.
  intros c _. split; [done|].
  destruct c as [s app [ch|] tok [] cur]; run_methods;
    destruct (truthy tok) eqn:E; cbn -[pretty String.append truthy];
    repeat constructor; done.
Qed.

Lemma token_leaveLobby_start :
  maintains (λ _, True) sends_truthy_token leaveLobby_start.
Proof.
  intros c _. split; [done|].
  destruct c as [s app [ch|] tok [] [cur|]]; run_methods;
    destruct (truthy tok) eqn:E; cbn -[pretty String.append truthy];
    repeat constructor; done.
Qed.

Ltac token_body :=
  first
    [ apply token_joinLobby_start
    | apply token_setHostInfo_start
    | apply token_leaveLobby_start
    | apply maintains_bind; [track|intros ?; apply token_joinLobby_start]
    | track ].

Lemma step_token (i : input) (s : system) :
  (λ _ : MatchmakeClient, True) (client (step i s).1)
  ∧ Forall (on_effects sends_truthy_token) (step i s).2.
Proof.
  destruct s as [c ws].
  step_cases_by (λ _ : MatchmakeClient, True) sends_truthy_token token_body.
Qed.

(** X11. Once [connect] has been called, acknowledged or not, the app
    channel stays in place whatever happens next (refused connects, lobby
    operations, pushes, socket events, [disconnect]): [findLobby] then
    always pushes [find_lobby] on ["app:auth"] and never fails with the
    [TypeError] of a missing channel. *)
Theorem app_channel_persists
    (s : system) (options : ConnectOptions.t) (ins : list input)
    (configId : Z) :
  let s1 := (step (invoke (call_connect options)) s).1 in
  let c := client (steps ins s1).1 in
  ∃ ch, appChannel c = Some ch
        ∧ topic ch = "app:auth"
        ∧ outcome (findLobby_start configId c) = normal tt
        ∧ transport_calls (trace (findLobby_start configId c))
          = [channel_push ch (find_lobby configId)].
Proof.
  intros s1 c.
  assert (H1 : has_app_channel (client s1)).
  { subst s1. destruct s as [[sk app lch tok [] cur] ws]; by cbn. }
  destruct (steps_maintain has_app_channel (λ _, True) (λ _, True)
              (λ i s _ Hs, step_app_channel i s Hs) ins s1) as [Hc _];
    [by apply Forall_true|done|].
  fold c in Hc. unfold has_app_channel in Hc.
  destruct c as [sk [ch|] lch tok dbg cur]; [|done]. cbn in Hc.
  exists ch. destruct dbg; by run_methods.
Qed.

(** X12. Whatever the client has been through, every [set_host] and
    [leave] request it sends and every lobby channel it creates carries a
    truthy session token: no such request goes out with an absent or empty
    token. *)
Theorem requests_carry_session_token
    (s : system) (ins : list input) (t : transport_call)
    (tok : option string) :
  did (transport t) ∈ (steps ins s).2 →
  token_sent t = Some tok →
  truthy tok = true.
Proof.
  intros Hin Htok.
  destruct (steps_maintain (λ _, True) sends_truthy_token (λ _, True)
              (λ i s _ _, step_token i s) ins s) as [_ Ho];
    [by apply Forall_true|done|].
  rewrite Forall_forall in Ho. specialize (Ho _ Hin).
  cbn in Ho. by rewrite Htok in Ho.
Qed.

Lemma requests_carry_session_token_witness :
  let t := channel_push (lobby_channel 12 (Some "tok")) (leave 12 (Some "tok")) in
  did (transport t)
    ∈ (steps (a_session false)
         (boot node "wss://example.com/socket" no_options)).2
  ∧ token_sent t = Some (Some "tok")
  ∧ truthy (Some "tok") = true.
Proof.
  intros t.
  assert (Hin : did (transport t)
                  ∈ (steps (a_session false)
                       (boot node "wss://example.com/socket" no_options)).2).
  { vm_compute. repeat first [by constructor 1|constructor 2]. }
  split; [exact Hin|]. split; [reflexivity|].
  exact (requests_carry_session_token _ _ _ _ Hin eq_refl).
Defined.

(** X13. A client built without the [debug] option, or with [debug: false],
    never writes to the console as long as [setDebug(true)] is not called,
    whatever else it is asked to do and whatever the transport answers. *)
Theorem no_console_output_unless_debug
    (rt : runtime) (ep : string) (tok : option string) (d : option bool)
    (ins : list input) (args : list log_arg) :
  d ≠ Some true →
  Forall not_enabling_debug ins →
  did (console_log args)
    ∉ (steps ins (boot rt ep {| ClientOptions.apiToken := tok;
                               ClientOptions.debug := d |})).2.
Proof.
  intros Hd Hins Hin.
  destruct (steps_maintain (λ c, debugEnabled c = false) silent
              not_enabling_debug step_silent ins
              (boot rt ep {| ClientOptions.apiToken := tok;
                             ClientOptions.debug := d |}) Hins) as [_ Ho].
  { by destruct d as [[]|]. }
  rewrite Forall_forall in Ho. exact (Ho _ Hin).
Qed.

Lemma no_console_output_unless_debug_witness :
  did (console_log [text "[MatchmakeClient]"; text "Disconnecting..."])
    ∉ (steps (a_session false)
         (boot node "wss://example.com/socket" no_options)).2.
Proof.
  apply (no_console_output_unless_debug node "wss://example.com/socket"
           None None (a_session false)).
  - discriminate.
  - unfold a_session. repeat constructor.
Defined.

(** X14. The example script, with every request acknowledged ["ok"] and a
    non-empty session token: the events are [connected], [lobbyFound],
    [lobbyJoined], [lobbyLeft] and [disconnected], in this order;
    [lobbyLeft] carries the id of the lobby of the join acknowledgement
    (the cached one), not that of the lobby found; every promise resolves;
    at the end nothing is outstanding, the lobby channel and the cached
    lobby are gone and the session token is still there. *)
Theorem runExample_run
    (rt : runtime) (ep : string) (options : ClientOptions.t)
    (cr : ConnectResponse.t) (found joined : LobbyResponse.t) :
  ConnectResponse.session_token cr ≠ "" →
  let r := steps (runExample cr found joined) (boot rt ep options) in
  events_of r.2
  = [connected (ConnectResponse.active_configs cr);
     lobbyFound (LobbyResponse.lobby found);
     lobbyJoined (LobbyResponse.lobby joined);
     lobbyLeft (Lobby.id (LobbyResponse.lobby joined));
     disconnected]
  ∧ results_of r.2
    = [resolved (v_configs (ConnectResponse.active_configs cr));
       resolved (v_lobby (LobbyResponse.lobby joined));
       resolved v_void;
       returned v_void]
  ∧ waiting r.1 = []
  ∧ lobbyChannel (client r.1) = None
  ∧ currentLobby (client r.1) = None
  ∧ sessionToken (client r.1) = Some (ConnectResponse.session_token cr).
Proof.
  intros Htok r. subst r.
  assert (Ht : truthy (Some (ConnectResponse.session_token cr)) = true).
  { by apply bool_decide_eq_true_2. }
  destruct options as [tok [[]|]], rt.
  all: unfold runExample, boot, new_MatchmakeClient;
    cbn [steps ClientOptions.debug ClientOptions.apiToken default from_option];
    unfold step, await, settle, sync; cbn [client waiting];
    run_methods; rewrite ?Ht; cbn -[pretty String.append truthy or_else];
    rewrite ?Ht; cbn -[pretty String.append truthy or_else].
  all: done.
Qed.

Lemma runExample_run_witness :
  events_of
    (steps (runExample a_connect_response
              (a_lobby_response (lobby_of 12 open []))
              (a_lobby_response (lobby_of 12 open [alice])))
       (boot node "wss://your-server.com/socket"
          {| ClientOptions.apiToken := Some "your-token";
             ClientOptions.debug := Some true |})).2
  = [connected []; lobbyFound (lobby_of 12 open []);
     lobbyJoined (lobby_of 12 open [alice]); lobbyLeft 12; disconnected].
Proof.
  assert (Htok : ConnectResponse.session_token a_connect_response ≠ "")
    by discriminate.
  destruct (runExample_run node "wss://your-server.com/socket"
              {| ClientOptions.apiToken := Some "your-token";
                 ClientOptions.debug := Some true |}
              a_connect_response
              (a_lobby_response (lobby_of 12 open []))
              (a_lobby_response (lobby_of 12 open [alice])) Htok)
    as (He & _).
  exact He.
Defined.

(** X15. The constructor uses a non-empty [apiToken] verbatim as the
    credential; an empty [apiToken] is falsy and is replaced by the default
    token, like an absent one. Debug logging is on exactly when the
    [debug] option is [true]. A new client has no channel, no session
    token and no cached lobby. *)
Theorem constructor_options
    (rt : runtime) (ep : string) (tok : option string) (d : option bool) :
  let c := new_MatchmakeClient rt ep
             {| ClientOptions.apiToken := tok; ClientOptions.debug := d |} in
  (∀ t, tok = Some t → t ≠ "" → credential rt t (socket c))
  ∧ (tok = Some "" ∨ tok = None → credential rt default_apiToken (socket c))
  ∧ endpoint (socket c) = ep
  ∧ debugEnabled c = bool_decide (d = Some true)
  ∧ appChannel c = None ∧ lobbyChannel c = None
  ∧ sessionToken c = None ∧ currentLobby c = None.
Proof.
  intros c. subst c. unfold new_MatchmakeClient, credential, or_else.
  cbn [ClientOptions.apiToken ClientOptions.debug socket debugEnabled
       appChannel lobbyChannel sessionToken currentLobby].
  split_and!; try done.
  - intros t -> Ht. cbn [truthy]. rewrite bool_decide_eq_true_2; [|done].
    by destruct rt.
  - intros [->| ->]; by destruct rt.
  - by destruct rt.
  - by destruct d as [[]|].
Qed.

Lemma constructor_options_witness :
  credential node "your-token"
    (socket (new_MatchmakeClient node "wss://your-server.com/socket"
               {| ClientOptions.apiToken := Some "your-token";
                  ClientOptions.debug := Some true |}))
  ∧ credential browser default_apiToken
      (socket (new_MatchmakeClient browser "wss://your-server.com/socket"
                 {| ClientOptions.apiToken := Some "";
                    ClientOptions.debug := None |})).
Proof.
  split.
  - destruct (constructor_options node "wss://your-server.com/socket"
                (Some "your-token") (Some true)) as (H & _).
    apply (H "your-token"); [reflexivity|discriminate].
  - destruct (constructor_options browser "wss://your-server.com/socket"
                (Some "") None) as (_ & H & _).
    apply H. by left.
Defined.

(** X16. A [connect] acknowledged with ["ok"] but with an empty session
    token still resolves and emits [connected], yet leaves the client
    unable to join: the empty token is falsy, so [joinLobby] is rejected
    with "Not connected" before any request. *)
Theorem connect_with_empty_token
    (c : MatchmakeClient) (options : ConnectOptions.t)
    (resp : ConnectResponse.t) (lobby : Lobby.t) (a : ack LobbyResponse.t) :
  ConnectResponse.session_token resp = "" →
  let r := connect options (ack_ok resp) c in
  outcome r = normal (ConnectResponse.active_configs resp)
  ∧ emitted (trace r) = [connected (ConnectResponse.active_configs resp)]
  ∧ joinLobby lobby a (final r) = Run (throw not_connected) (final r) [].
Proof.
  intros Hempty. destruct resp as [cfgs tok]. cbn in Hempty. subst tok.
  destruct c as [s app lch tok [] cur]; by run_methods.
Qed.

Lemma connect_with_empty_token_witness :
  let r := connect some_options
             (ack_ok {| ConnectResponse.active_configs := [];
                        ConnectResponse.session_token := "" |})
             fresh_client in
  outcome r = normal []
  ∧ joinLobby (lobby_of 5 open []) (ack_ok (a_lobby_response (lobby_of 5 open [])))
      (final r)
    = Run (throw not_connected) (final r) [].
Proof.
  destruct (connect_with_empty_token fresh_client some_options
              {| ConnectResponse.active_configs := [];
                 ConnectResponse.session_token := "" |}
              (lobby_of 5 open [])
              (ack_ok (a_lobby_response (lobby_of 5 open []))) eq_refl)
    as (Ho & _ & Hj).
  by split.
Defined.

(** X17. The message of the error built from an ["error"] acknowledgement
    ends with the server's reason when there is a non-empty one, and with
    "Unknown error" when the reason is absent or empty. *)
Theorem error_message_reason (c : MatchmakeClient) (err : error_payload) :
  (∀ why, reason err = Some why → why ≠ "" →
     outcome (connect_resume (ack_error err) c)
     = throw (mk_error ConnectionError ("Failed to join app channel: " +:+ why))
     ∧ outcome (findLobby_resume (ack_error err) c)
       = throw (mk_error LobbyError ("Failed to find lobby: " +:+ why)))
  ∧ (reason err = None ∨ reason err = Some "" →
     outcome (connect_resume (ack_error err) c)
     = throw (mk_error ConnectionError
                "Failed to join app channel: Unknown error")
     ∧ outcome (findLobby_resume (ack_error err) c)
       = throw (mk_error LobbyError "Failed to find lobby: Unknown error")).
Proof.
  destruct err as [r]. cbn [reason]. split.
  - intros why -> Hwhy.
    assert (Hu : truthy (Some why) = true).
    { by apply bool_decide_eq_true_2. }
    destruct c as [s app lch tok [] cur]; run_methods; by rewrite Hu.
  - intros [->| ->]; destruct c as [s app lch tok [] cur]; by run_methods.
Qed.

Lemma error_message_reason_witness :
  outcome (connect_resume (ack_error {| reason := Some "bad token" |}) fresh_client)
  = throw (mk_error ConnectionError "Failed to join app channel: bad token")
  ∧ outcome (findLobby_resume (ack_error {| reason := Some "" |}) fresh_client)
    = throw (mk_error LobbyError "Failed to find lobby: Unknown error").
Proof.
  split.
  - destruct (error_message_reason fresh_client {| reason := Some "bad token" |})
      as [H _].
    destruct (H "bad token" eq_refl) as [Hc _]; [discriminate|]. exact Hc.
  - destruct (error_message_reason fresh_client {| reason := Some "" |})
      as [_ H].
    destruct H as [_ Hf]; [by right|]. exact Hf.
Defined.

(** X18. Nothing guards against overlapping requests. If [leaveLobby] is
    called twice before the first acknowledgement, both calls pass the
    guard and both push [leave]; when both are acknowledged with ["ok"],
    the first resolves and emits [lobbyLeft], the second finds the lobby
    channel gone, rejects with a [TypeError] and emits [error], although
    the server accepted it. *)
Theorem leaveLobby_twice
    (c : MatchmakeClient) (ch : Channel) (cur : Lobby.t) :
  lobbyChannel c = Some ch →
  truthy (sessionToken c) = true →
  currentLobby c = Some cur →
  let r := steps leave_twice {| client := c; waiting := [] |} in
  calls_of r.2
  = [channel_push ch (leave (Lobby.id cur) (sessionToken c));
     channel_push ch (leave (Lobby.id cur) (sessionToken c));
     channel_leave ch]
  ∧ events_of r.2
    = [lobbyLeft (Lobby.id cur); error (TypeError_of_undefined "leave")]
  ∧ results_of r.2
    = [resolved v_void; rejected (TypeError_of_undefined "leave")]
  ∧ waiting r.1 = [].
Proof.
  intros Hch Htok Hcur r. subst r.
  destruct c as [s app lch tok dbg cur']. cbn in Hch, Htok, Hcur.
  subst lch cur'.
  destruct dbg.
  all: unfold leave_twice; cbn [steps];
    unfold step, await, settle, sync; cbn [client waiting];
    run_methods; rewrite ?Htok; cbn -[pretty String.append truthy];
    rewrite ?Htok; cbn -[pretty String.append truthy].
  all: done.
Qed.

Lemma leaveLobby_twice_witness :
  let c := final (joinLobby (lobby_of 12 open [])
                    (ack_ok (a_lobby_response (lobby_of 12 open [alice])))
                    connected_client) in
  results_of (steps leave_twice {| client := c; waiting := [] |}).2
  = [resolved v_void; rejected (TypeError_of_undefined "leave")].
Proof.
  intros c.
  destruct (leaveLobby_twice c (lobby_channel 12 (Some "tok"))
              (lobby_of 12 open [alice]) eq_refl eq_refl eq_refl)
    as (_ & _ & Hr & _).
  exact Hr.
Defined.

Lemma filter_none {A} (P : A → Prop) `{!∀ x, Decision (P x)} (l : list A) :
  (∀ x, x ∈ l → ¬ P x) → filter P l = [].
Proof.
  induction l as [|x l IH]; intros Hall; [done|].
  rewrite filter_cons_False; [|apply Hall; by left].
  apply IH. intros y Hy. apply Hall. by right.
Qed.

(** X19. The diff looks at player ids, status and host fields only. When
    the two snapshots have the same set of player ids, the same status and
    the same host fields, the handler emits [lobbyUpdate] alone, however
    the snapshots differ otherwise: a reordered roster, a player whose
    slug changed, a new name or new metadata raise no event of their
    own. *)
Theorem lobby_update_same_roster
    (c : MatchmakeClient) (previous next : Lobby.t) :
  currentLobby c = Some previous →
  (∀ i, i ∈ (Player.id <$> Lobby.players next)
        ↔ i ∈ (Player.id <$> Lobby.players previous)) →
  Lobby.status next = Lobby.status previous →
  Lobby.host_type next = Lobby.host_type previous →
  Lobby.host_address next = Lobby.host_address previous →
  Lobby.host_port next = Lobby.host_port previous →
  emitted (trace (onLobbyUpdate next c)) = [lobbyUpdate next].
Proof.
  intros Hcur Hids Hst Ht Ha Hp.
  destruct (onLobbyUpdate_run c previous next Hcur) as (_ & _ & -> & _).
  unfold diff_events, joined_players, left_players.
  rewrite !filter_none.
  - rewrite decide_False by (by intros ?).
    rewrite decide_False; [done|]. unfold host_differs. naive_solver.
  - intros p Hin Hnot. apply Hnot, Hids, list_elem_of_fmap. eauto.
  - intros p Hin Hnot. apply Hnot, Hids, list_elem_of_fmap. eauto.
Qed.

(** The roster is reversed and alice's slug changes. *)
Lemma lobby_update_same_roster_witness :
  let alice' := {| Player.id := 1; Player.slug := "alicia";
                   Player.joined_at := "t0" |} in
  emitted (trace (onLobbyUpdate (lobby_of 5 open [bob; alice'])
                    (with_currentLobby (Some (lobby_of 5 open [alice; bob]))
                       fresh_client)))
  = [lobbyUpdate (lobby_of 5 open [bob; alice'])].
Proof.
  intros alice'.
  apply (lobby_update_same_roster _ (lobby_of 5 open [alice; bob]));
    try reflexivity.
  intros i. cbn. rewrite !elem_of_cons, !elem_of_nil. tauto.
Defined.
